(** * Emoji Replacer: the text substitution engine and its settings surface

    A shallow embedding of [src/main.ts].  JavaScript strings are sequences
    of UTF-16 code units, the rendered document is a tree of nodes with
    identities, the icon service and the emoji library are records of
    fallible functions, and the engine threads an explicit state (the cached
    emoji module, the supply of fresh node identities and the log of calls
    made to the outside). *)

From Stdlib Require Import NArith String Ascii.
From stdpp Require Import base option list gmap strings.

Open Scope N_scope.
Open Scope list_scope.

(** ** JavaScript strings *)

Module JS.

(** A string is its list of UTF-16 code units. *)
Abbreviation jsstring := (list N).

Definition lit (s : string) : jsstring :=
  map N_of_ascii (list_ascii_of_string s).

Definition isHighSurrogate (u : N) : bool := (0xD800 <=? u) && (u <=? 0xDBFF).
Definition isLowSurrogate (u : N) : bool := (0xDC00 <=? u) && (u <=? 0xDFFF).

(** [for (const char of text)]: the string iterator yields one string per
    code point; a high surrogate followed by a low surrogate is one
    two-unit string, every other code unit stands alone. *)
Fixpoint stringIterator (s : jsstring) : list jsstring :=
  match s with
  | [] => []
  | u :: r =>
      match r with
      | l :: r' =>
          if isHighSurrogate u && isLowSurrogate l
          then [u; l] :: stringIterator r'
          else [u] :: stringIterator r
      | [] => [[u]]
      end
  end.

Fixpoint startsWith (pat s : jsstring) : bool :=
  match pat, s with
  | [], _ => true
  | _ :: _, [] => false
  | p :: pat', c :: s' => (p =? c) && startsWith pat' s'
  end.

(** [s.indexOf(pat)]; [None] stands for [-1]. *)
Fixpoint indexOf (s pat : jsstring) : option nat :=
  if startsWith pat s then Some 0%nat
  else match s with
       | [] => None
       | _ :: s' => S <$> indexOf s' pat
       end.

(** [s.substring(a, b)] and [s.substring(a)] for in-range arguments. *)
Definition substring (s : jsstring) (a b : nat) : jsstring := take (b - a) (drop a s).
Definition substringFrom (s : jsstring) (a : nat) : jsstring := drop a s.

(** Truthiness of a string value: only the empty string is falsy. *)
Definition truthy (s : jsstring) : bool :=
  match s with [] => false | _ => true end.


End JS.
Import JS.

(** ** The rendered document *)

Unset Elimination Schemes.
Inductive Node :=
| Text (uid : nat) (data : jsstring)
| Element (uid : nat) (localName : string) (childNodes : list Node).
Set Elimination Schemes.

(** Induction over the tree, with the hypothesis for every child. *)
Fixpoint Node_ind (P : Node -> Prop)
    (HText : forall uid data, P (Text uid data))
    (HElement : forall uid tag cs, Forall P cs -> P (Element uid tag cs))
    (n : Node) : P n :=
  match n with
  | Text uid data => HText uid data
  | Element uid tag cs =>
      HElement uid tag cs
        ((fix children (l : list Node) : Forall P l :=
            match l with
            | [] => List.Forall_nil P
            | c :: r => List.Forall_cons P c r (Node_ind P HText HElement c) (children r)
            end) cs)
  end.

Definition nodeUid (n : Node) : nat :=
  match n with Text u _ => u | Element u _ _ => u end.

Definition isTextNode (n : Node) : bool :=
  match n with Text _ _ => true | Element _ _ _ => false end.

(** [node.textContent]: the text of a leaf, the concatenated text of the
    descendants of an element. *)
Fixpoint textContent (n : Node) : jsstring :=
  match n with
  | Text _ s => s
  | Element _ _ cs => concat (map textContent cs)
  end.

(** ** Outcomes of calls that may throw *)

Inductive Result (A : Type) :=
| Return (a : A)
| Throw (e : string).
Arguments Return {A} a.
Arguments Throw {A} e.

Inductive Completion :=
| Normal
| Abrupt (e : string).

(** ** The collaborators *)

(** The icon service ([getApi()] of Icon Shortcodes). *)
Record IconSC := {
  hasIcon : jsstring -> Result bool;
  getSVGIcon : jsstring -> Result (option Node);
  isEmoji : jsstring -> Result bool
}.

(** The [node-emoji] module; [find] answers with the [key] of the record it
    found, if any. *)
Record EmojiModule := {
  find : jsstring -> Result (option jsstring)
}.

(** Calls made to the outside, in the order they happen. *)
Inductive Event :=
| CallHasIcon (id : jsstring)
| CallGetSVGIcon (id : jsstring)
| CallIsEmoji (char : jsstring)
| Import
| CallFind (char : jsstring)
| ConsoleError (msg : string).

(** Events that only the default icon search produces. *)
Definition isHeuristicEvent (e : Event) : bool :=
  match e with
  | CallIsEmoji _ | Import | CallFind _ | ConsoleError _ => true
  | CallHasIcon _ | CallGetSVGIcon _ => false
  end.

(** ** The plugin *)

Record EmojiReplacerSettings := {
  customEmojiMappings : gmap (list N) (list N);
  enableDefaultIconSearch : bool
}.

Definition DEFAULT_SETTINGS : EmojiReplacerSettings :=
  {| customEmojiMappings := ∅; enableDefaultIconSearch := true |}.

(** What the engine reads and never writes during a traversal. *)
Record Env := {
  settings : EmojiReplacerSettings;
  isMobileDevice : bool;
  iconSC : IconSC;
  importNodeEmoji : Result EmojiModule   (* outcome of [import("node-emoji")] *)
}.

(** What the engine writes. *)
Record State := {
  emojiModule : option EmojiModule;      (* [this.emojiModule], [null] at first *)
  nextUid : nat;                         (* identity of the next node created *)
  trace : list Event
}.

Definition emit (e : Event) (st : State) : State :=
  {| emojiModule := emojiModule st; nextUid := nextUid st; trace := trace st ++ [e] |}.

Definition setEmojiModule (m : EmojiModule) (st : State) : State :=
  {| emojiModule := Some m; nextUid := nextUid st; trace := trace st |}.

Definition freshUid (st : State) : nat * State :=
  (nextUid st,
   {| emojiModule := emojiModule st; nextUid := S (nextUid st); trace := trace st |}).

(** [document.createTextNode(s)] *)
Definition createTextNode (s : jsstring) (st : State) : Node * State :=
  let '(u, st1) := freshUid st in (Text u s, st1).

(** Threading the state through the children of a node, left to right. *)
Definition cloneChildren (clone : Node -> State -> Node * State)
    : list Node -> State -> list Node * State :=
  fix go (cs : list Node) (st : State) : list Node * State :=
    match cs with
    | [] => ([], st)
    | c :: r =>
        let '(c', st1) := clone c st in
        let '(r', st2) := go r st1 in
        (c' :: r', st2)
    end.

(** [n.cloneNode(true)]: a deep copy, every copied node a new node. *)
Fixpoint cloneNode (n : Node) (st : State) : Node * State :=
  match n with
  | Text _ s => createTextNode s st
  | Element _ tag cs =>
      let '(u, st1) := freshUid st in
      let '(cs', st2) := cloneChildren cloneNode cs st1 in
      (Element u tag cs', st2)
  end.

(** A node with its identities forgotten: what a copy shares with its
    original. *)
Fixpoint eraseUid (n : Node) : Node :=
  match n with
  | Text _ s => Text 0 s
  | Element _ tag cs => Element 0 tag (map eraseUid cs)
  end.

(** ** [replaceTextWithIcon]

    [parent] says whether [textNode.parentNode] is non-null.  The answer
    [Some nodes] stands for [true]: [nodes] now stand, in this order, where
    [textNode] stood among its parent's children.  [None] stands for
    [false]: the tree is as it was. *)
Definition replaceTextWithIcon (parent : bool) (textNode : Node)
    (emoji : jsstring) (svg : Node) (st : State) : option (list Node) * State :=
  let text := textContent textNode in
  match indexOf text emoji with
  | None => (None, st)
  | Some index =>
      let '(before, st1) := createTextNode (substring text 0 index) st in
      let '(after, st2) :=
        createTextNode (substringFrom text (index + length emoji)) st1 in
      if parent then
        let '(clone, st3) := cloneNode svg st2 in
        (Some [before; clone; after], st3)
      else (None, st2)
  end.

(** ** [processTextNodes] *)

(** How one stage of the loop body ends. *)
Inductive Ctl :=
| Proceed                        (* go on: next stage, or next character *)
| Break (replacement : list Node)
| Raise (e : string).            (* an exception leaves the loop *)

Section Engine.

Variable env : Env.

Definition lookupMapping (char : jsstring) : option jsstring :=
  match customEmojiMappings (settings env) !! char with
  | Some id => if truthy id then Some id else None
  | None => None
  end.

(** Lines 63-72: the custom mapping of [char], outside any [try]. *)
Definition customMappingPath (parent : bool) (node : Node) (char : jsstring)
    (st : State) : Ctl * State :=
  match lookupMapping char with
  | None => (Proceed, st)
  | Some customIconId =>
      let st1 := emit (CallHasIcon customIconId) st in
      match hasIcon (iconSC env) customIconId with
      | Throw e => (Raise e, st1)
      | Return false => (Proceed, st1)
      | Return true =>
          let st2 := emit (CallGetSVGIcon customIconId) st1 in
          match getSVGIcon (iconSC env) customIconId with
          | Throw e => (Raise e, st2)
          | Return None => (Proceed, st2)
          | Return (Some svg) =>
              match replaceTextWithIcon parent node char svg st2 with
              | (Some nodes, st3) => (Break nodes, st3)
              | (None, st3) => (Proceed, st3)
              end
          end
      end
  end.

(** Lines 92-101: the body of the outer [try], once the module is there. *)
Definition heuristicLookup (m : EmojiModule) (parent : bool) (node : Node)
    (char : jsstring) (st : State) : Ctl * State :=
  let st1 := emit (CallFind char) st in
  match find m char with
  | Throw e => (Raise e, st1)
  | Return None => (Proceed, st1)
  | Return (Some key) =>
      let lucideId := lit "luc_" ++ key in
      let st2 := emit (CallHasIcon lucideId) st1 in
      match hasIcon (iconSC env) lucideId with
      | Throw e => (Raise e, st2)
      | Return false => (Proceed, st2)
      | Return true =>
          let st3 := emit (CallGetSVGIcon lucideId) st2 in
          match getSVGIcon (iconSC env) lucideId with
          | Throw e => (Raise e, st3)
          | Return None => (Proceed, st3)
          | Return (Some svg) =>
              match replaceTextWithIcon parent node char svg st3 with
              | (Some nodes, st4) => (Break nodes, st4)
              | (None, st4) => (Proceed, st4)
              end
          end
      end
  end.

(** Lines 80-105: the default icon search for [char]. *)
Definition heuristicPath (parent : bool) (node : Node) (char : jsstring)
    (st : State) : Ctl * State :=
  if enableDefaultIconSearch (settings env) then
    let st1 := emit (CallIsEmoji char) st in
    match isEmoji (iconSC env) char with
    | Throw e => (Raise e, st1)
    | Return false => (Proceed, st1)
    | Return true =>
        (* try *)
        let guarded (m : EmojiModule) (st : State) :=
          match heuristicLookup m parent node char st with
          | (Raise _, st') =>
              (* catch (error) *)
              (Proceed, emit (ConsoleError "Error using node-emoji:") st')
          | r => r
          end in
        match emojiModule st1 with
        | Some m => guarded m st1
        | None =>
            let st2 := emit Import st1 in
            match importNodeEmoji env with
            | Throw _ =>
                (* catch (importError) ... continue *)
                (Proceed, emit (ConsoleError "Failed to import node-emoji:") st2)
            | Return m => guarded m (setEmojiModule m st2)
            end
        end
    end
  else (Proceed, st).

(** Lines 61-106: the loop over the characters of a text node.  The answer
    is the list of nodes standing where [node] stood, and how the loop
    ended. *)
Fixpoint scan (parent : bool) (node : Node) (chars : list jsstring)
    (st : State) : list Node * Completion * State :=
  match chars with
  | [] => ([node], Normal, st)
  | char :: rest =>
      match customMappingPath parent node char st with
      | (Break nodes, st1) => (nodes, Normal, st1)
      | (Raise e, st1) => ([node], Abrupt e, st1)
      | (Proceed, st1) =>
          if isMobileDevice env then scan parent node rest st1
          else
            match heuristicPath parent node char st1 with
            | (Break nodes, st2) => (nodes, Normal, st2)
            | (Raise e, st2) => ([node], Abrupt e, st2)
            | (Proceed, st2) => scan parent node rest st2
            end
      end
  end.

(** Line 109-111: [for (const child of Array.from(node.childNodes))
    await processTextNodes(child)].  The children are visited from a
    snapshot, so nodes spliced in by a replacement are not visited; an
    exception raised under a child leaves the later children as they are. *)
Definition forChildren (process : Node -> State -> list Node * Completion * State)
    : list Node -> State -> list Node * Completion * State :=
  fix go (cs : list Node) (st : State) : list Node * Completion * State :=
    match cs with
    | [] => ([], Normal, st)
    | child :: rest =>
        match process child st with
        | (nodes, Normal, st1) =>
            let '(rest', k, st2) := go rest st1 in
            (nodes ++ rest', k, st2)
        | (nodes, Abrupt e, st1) => (nodes ++ rest, Abrupt e, st1)
        end
    end.

(** Lines 58-113.  The answer is the list of nodes standing where [node]
    stood, how the traversal ended, and the state it left. *)
Fixpoint processTextNodes (parent : bool) (node : Node) (st : State)
    : list Node * Completion * State :=
  match node with
  | Text _ text => scan parent node (stringIterator text) st
  | Element uid tag children =>
      let '(children', k, st') := forChildren (processTextNodes true) children st in
      ([Element uid tag children'], k, st')
  end.

(** *** Reference behaviour: custom mappings only

    The engine as the specification describes it where the default icon
    search is off or unavailable: the same traversal, with the custom
    mapping as the only stage of the loop body. *)
Fixpoint scanCustomOnly (parent : bool) (node : Node) (chars : list jsstring)
    (st : State) : list Node * Completion * State :=
  match chars with
  | [] => ([node], Normal, st)
  | char :: rest =>
      match customMappingPath parent node char st with
      | (Break nodes, st1) => (nodes, Normal, st1)
      | (Raise e, st1) => ([node], Abrupt e, st1)
      | (Proceed, st1) => scanCustomOnly parent node rest st1
      end
  end.

Fixpoint customMappingsOnly (parent : bool) (node : Node) (st : State)
    : list Node * Completion * State :=
  match node with
  | Text _ text => scanCustomOnly parent node (stringIterator text) st
  | Element uid tag children =>
      let '(children', k, st') := forChildren (customMappingsOnly true) children st in
      ([Element uid tag children'], k, st')
  end.

(** *** What the default icon search would insert

    The module the search works with: the cached one, or else the one the
    import yields. *)
Definition availableModule (st : State) : option EmojiModule :=
  match emojiModule st with
  | Some m => Some m
  | None =>
      match importNodeEmoji env with
      | Return m => Some m
      | Throw _ => None
      end
  end.

(** The graphic that the module [m] and the icon service resolve [char]
    to: the icon named [luc_] followed by the key that [m] finds. *)
Definition lucideIcon (m : EmojiModule) (char : jsstring) : option Node :=
  match find m char with
  | Return (Some key) =>
      match hasIcon (iconSC env) (lit "luc_" ++ key) with
      | Return true =>
          match getSVGIcon (iconSC env) (lit "luc_" ++ key) with
          | Return (Some svg) => Some svg
          | _ => None
          end
      | _ => None
      end
  | _ => None
  end.

(** The graphic that the default icon search resolves [char] to, if it
    resolves it at all. *)
Definition heuristicIcon (st : State) (char : jsstring) : option Node :=
  if isMobileDevice env then None
  else if negb (enableDefaultIconSearch (settings env)) then None
  else
    match isEmoji (iconSC env) char, availableModule st with
    | Return true, Some m => lucideIcon m char
    | _, _ => None
    end.

(** *** The registered post processor (lines 115-119)

    [element.querySelectorAll("p, li, div")]: the matching descendants, by
    identity, in document order. *)
Definition matchesSelector (n : Node) : bool :=
  match n with
  | Text _ _ => false
  | Element _ tag _ =>
      bool_decide (tag = "p"%string) || bool_decide (tag = "li"%string)
      || bool_decide (tag = "div"%string)
  end.

Fixpoint querySelectorAll (n : Node) : list nat :=
  match n with
  | Text _ _ => []
  | Element _ _ cs =>
      flat_map (fun c =>
        (if matchesSelector c then [nodeUid c] else []) ++ querySelectorAll c) cs
  end.

(** One callback of the [forEach]: [processTextNodes(el)] for the element
    [el] of identity [target], wherever it stands under [n] by now.  The
    promise of the callback is dropped, and with it the way it completes. *)
Definition underChildren (under : Node -> State -> Node * State) (target : nat)
    : list Node -> State -> list Node * State :=
  fix go (cs : list Node) (st : State) : list Node * State :=
    match cs with
    | [] => ([], st)
    | c :: r =>
        let '(here, st1) :=
          if matchesSelector c && bool_decide (nodeUid c = target)
          then let '(nodes, _, st1) := processTextNodes true c st in (nodes, st1)
          else let '(c', st1) := under c st in ([c'], st1) in
        let '(r', st2) := go r st1 in
        (here ++ r', st2)
    end.

Fixpoint processUnder (target : nat) (n : Node) (st : State) : Node * State :=
  match n with
  | Text _ _ => (n, st)
  | Element uid tag cs =>
      let '(cs', st') := underChildren (processUnder target) target cs st in
      (Element uid tag cs', st')
  end.

(** The callbacks are taken one after the other, each run to its end: the
    render pass as it is where the callbacks do not overlap, as with one
    selected element.  How pending callbacks interleave at their [await]s
    is modelled by [interleavedPostProcessor] below. *)
Definition emojiPostProcessor (element : Node) (st : State) : Node * State :=
  fold_left (fun acc target => processUnder target (fst acc) (snd acc))
            (querySelectorAll element) (element, st).

End Engine.


(** [nodes] are what a substitution puts in the place of the text node
    [node] for the character [char] and the icon [svg]: the text before the
    first occurrence of [char], a copy of the icon, the text after it. *)
Definition spliced (node : Node) (char : jsstring) (svg : Node)
    (nodes : list Node) : Prop :=
  exists u1 u2 before graphic after,
    nodes = [Text u1 before; graphic; Text u2 after]
    /\ textContent node = before ++ char ++ after
    /\ (forall j, (j < length before)%nat ->
          startsWith char (drop j (textContent node)) = false)
    /\ eraseUid graphic = eraseUid svg.

(** The events [evs] were added to the trace between [st] and [st']. *)
Definition traced (st st' : State) (evs : list Event) : Prop :=
  trace st' = trace st ++ evs.

(** No event of [evs] comes from the default icon search. *)
Definition quiet (evs : list Event) : Prop :=
  Forall (fun e => isHeuristicEvent e = false) evs.

(** Between [st] and [st'] the default icon search did nothing: the module
    cache is as it was and no event of the search was added to the trace. *)
Definition calm (st st' : State) : Prop :=
  emojiModule st' = emojiModule st /\ exists evs, traced st st' evs /\ quiet evs.

(** Text leaves of a tree, in document order. *)
Fixpoint textLeaves (n : Node) : list Node :=
  match n with
  | Text _ _ => [n]
  | Element _ _ cs => flat_map textLeaves cs
  end.


(** ** The settings tab: the mapping table and its actions *)

Module SettingTab.

Record Tab := {
  pluginSettings : EmojiReplacerSettings;   (* [this.plugin.settings] *)
  saved : list EmojiReplacerSettings;       (* what [saveData] was given, oldest first *)
  notices : list string;                    (* every [new Notice(...)], oldest first *)
  emojiInput : jsstring;                    (* [emojiInput.value] *)
  iconInput : jsstring;                     (* [iconInput.value] *)
  refreshes : nat                           (* calls of [refreshMappings] *)
}.

Definition notice (msg : string) (t : Tab) : Tab :=
  {| pluginSettings := pluginSettings t; saved := saved t;
     notices := notices t ++ [msg];
     emojiInput := emojiInput t; iconInput := iconInput t;
     refreshes := refreshes t |}.

(** Lines 384-395: the loop that looks for a second emoji.  [Return true]:
    the loop ran to its end; [Return false]: it left through the notice.
    ([remainingText] is written and never read.) *)
Fixpoint onlyOneEmoji (api : IconSC) (chars : list jsstring) (foundEmoji : bool)
    : Result bool :=
  match chars with
  | [] => Return true
  | char :: rest =>
      match isEmoji api char with
      | Throw e => Throw e
      | Return true =>
          if foundEmoji then Return false
          else onlyOneEmoji api rest true
      | Return false => onlyOneEmoji api rest foundEmoji
      end
  end.

Definition setMapping (emoji iconId : jsstring) (s : EmojiReplacerSettings)
    : EmojiReplacerSettings :=
  {| customEmojiMappings := <[emoji := iconId]> (customEmojiMappings s);
     enableDefaultIconSearch := enableDefaultIconSearch s |}.

Definition deleteMapping (emoji : jsstring) (s : EmojiReplacerSettings)
    : EmojiReplacerSettings :=
  {| customEmojiMappings := delete emoji (customEmojiMappings s);
     enableDefaultIconSearch := enableDefaultIconSearch s |}.

(** Lines 366-407: the click on "Add mapping".  An exception thrown by the
    icon service ends the handler where it stands. *)
Definition addMappingOnClick (getApi : option IconSC) (t : Tab) : Tab :=
  let emoji := emojiInput t in
  let iconId := iconInput t in
  if negb (truthy emoji) || negb (truthy iconId) then
    notice "Both emoji and icon shortcode are required" t
  else
    match getApi with
    | None => notice "Please enter a valid emoji character" t
    | Some iconSC =>
        match isEmoji iconSC emoji with
        | Throw _ => t
        | Return false => notice "Please enter a valid emoji character" t
        | Return true =>
            match onlyOneEmoji iconSC (stringIterator emoji) false with
            | Throw _ => t
            | Return false => notice "Please enter only one emoji" t
            | Return true =>
                let settings' := setMapping emoji iconId (pluginSettings t) in
                {| pluginSettings := settings';
                   saved := saved t ++ [settings'];
                   notices := notices t;
                   emojiInput := []; iconInput := [];
                   refreshes := S (refreshes t) |}
            end
        end
    end.

(** Lines 295-299: the click on the "Delete" button of the row of [emoji]. *)
Definition deleteOnClick (emoji : jsstring) (t : Tab) : Tab :=
  let settings' := deleteMapping emoji (pluginSettings t) in
  {| pluginSettings := settings';
     saved := saved t ++ [settings'];
     notices := notices t;
     emojiInput := emojiInput t; iconInput := iconInput t;
     refreshes := S (refreshes t) |}.

(** The emoji code points of a string, as the icon service [detect]s them. *)
Definition emojiChars (detect : jsstring -> bool) (s : jsstring) : list jsstring :=
  filter (fun c => detect c = true) (stringIterator s).

(** A key that the validation of the settings tab lets through: not empty,
    recognised by the icon service as an emoji, and with no second emoji
    character in it. *)
Definition singleEmoji (detect : jsstring -> bool) (key : jsstring) : Prop :=
  key <> [] /\ detect key = true /\ (length (emojiChars detect key) <= 1)%nat.

(** Lines 209-214: the toggle "Enable default icon search" changes the
    flag and saves; the list of mappings is not drawn again. *)
Definition toggleOnChange (value : bool) (t : Tab) : Tab :=
  let settings' :=
    {| customEmojiMappings := customEmojiMappings (pluginSettings t);
       enableDefaultIconSearch := value |} in
  {| pluginSettings := settings';
     saved := saved t ++ [settings'];
     notices := notices t;
     emojiInput := emojiInput t; iconInput := iconInput t;
     refreshes := refreshes t |}.

(** What the user does in the tab: typing into one of the two fields
    changes the [value] that the click on "Add mapping" reads. *)
Inductive Action :=
| TypeEmoji (value : jsstring)
| TypeIcon (value : jsstring)
| ClickAdd
| ClickDelete (emoji : jsstring)
| Toggle (value : bool).

Definition act (getApi : option IconSC) (a : Action) (t : Tab) : Tab :=
  match a with
  | TypeEmoji value =>
      {| pluginSettings := pluginSettings t; saved := saved t; notices := notices t;
         emojiInput := value; iconInput := iconInput t; refreshes := refreshes t |}
  | TypeIcon value =>
      {| pluginSettings := pluginSettings t; saved := saved t; notices := notices t;
         emojiInput := emojiInput t; iconInput := value; refreshes := refreshes t |}
  | ClickAdd => addMappingOnClick getApi t
  | ClickDelete emoji => deleteOnClick emoji t
  | Toggle value => toggleOnChange value t
  end.

(** The actions are taken one at a time, each handler run to its end. *)
Definition perform (getApi : option IconSC) (actions : list Action) (t : Tab) : Tab :=
  fold_left (fun t a => act getApi a t) actions t.

(** Lines 273-287: the preview cell of the row of a mapping. *)
Inductive Preview :=
| IconShown (svg : Node)
| IconNotFound.                 (* the text "(Icon not found)" *)

Definition iconPreview (getApi : option IconSC) (id : jsstring) : Result Preview :=
  match getApi with
  | None => Return IconNotFound
  | Some iconSC =>
      match hasIcon iconSC id with
      | Throw e => Throw e
      | Return false => Return IconNotFound
      | Return true =>
          match getSVGIcon iconSC id with
          | Throw e => Throw e
          | Return (Some svg) => Return (IconShown svg)
          | Return None => Return IconNotFound
          end
      end
  end.

(** No key and no icon shortcode of the table is the empty string. *)
Definition noEmptyEntry (m : gmap (list N) (list N)) : Prop :=
  forall k v, m !! k = Some v -> k <> [] /\ v <> [].

End SettingTab.

(** ** Loading the plugin *)

Module Lifecycle.

Record ModalContent := {
  title : string;
  paragraphs : list string;
  instructionsTitle : string;
  instructions : list string;
  buttons : list string
}.

Definition quoted (s : string) : string :=
  String (ascii_of_nat 34) s +:+ String (ascii_of_nat 34) EmptyString.

(** Lines 141-187: what [MissingDependencyModal.onOpen] builds. *)
Definition MissingDependencyModal : ModalContent :=
  {| title := "Missing Dependency";
     paragraphs :=
       ["The Emoji Replacer plugin requires the " +:+ quoted "Icon Shortcodes"
          +:+ " plugin to function properly.";
        "Please install and enable the " +:+ quoted "Icon Shortcodes"
          +:+ " plugin to use Emoji Replacer."];
     instructionsTitle := "Installation Instructions:";
     instructions :=
       ["Open Obsidian Settings"%string;
        "Go to " +:+ quoted "Community plugins" +:+ " tab";
        "Turn off " +:+ quoted "Restricted mode" +:+ " if enabled";
        "Click " +:+ quoted "Browse" +:+ " to open the community plugins browser";
        "Search for " +:+ quoted "Icon Shortcodes";
        "Click " +:+ quoted "Install" +:+ " and then " +:+ quoted "Enable"];
     buttons := ["Close"%string] |}.

(** What [loadData] may hand back: any part of the settings may be missing. *)
Record SavedData := {
  savedMappings : option (gmap (list N) (list N));
  savedFlag : option bool
}.

(** The runtime the plugin is loaded in. *)
Record Runtime := {
  platformIsMobile : bool;                    (* [Platform.isMobile] *)
  getApi : option IconSC;                     (* [getApi()], [None] when absent *)
  nodeEmojiImport : Result EmojiModule;       (* outcome of [import("node-emoji")] *)
  loadData : option SavedData
}.

Record Plugin := {
  this_settings : EmojiReplacerSettings;
  this_isMobileDevice : bool;
  openedModals : list ModalContent;           (* every modal opened, oldest first *)
  markdownPostProcessors : list IconSC;       (* every registered post processor,
                                                 by the icon service it closes over *)
  settingTabs : nat
}.

(** Line 132: [Object.assign({}, DEFAULT_SETTINGS, await this.loadData())],
    for one load of the plugin.  The copy is shallow: without saved
    mappings the settings hold the table object of [DEFAULT_SETTINGS]
    itself, so a mapping added later is seen by a second load within the
    same run of the module.  This sharing is not modelled; the settings
    are the ones of the first load. *)
Definition loadSettings (data : option SavedData) : EmojiReplacerSettings :=
  match data with
  | None => DEFAULT_SETTINGS
  | Some d =>
      {| customEmojiMappings :=
           default (customEmojiMappings DEFAULT_SETTINGS) (savedMappings d);
         enableDefaultIconSearch :=
           default (enableDefaultIconSearch DEFAULT_SETTINGS) (savedFlag d) |}
  end.

(** Lines 22-24 and 123: [onload], up to the callback it leaves with
    [onLayoutReady]. *)
Definition onload (rt : Runtime) : Plugin :=
  {| this_settings := loadSettings (loadData rt);
     this_isMobileDevice := platformIsMobile rt;
     openedModals := [];
     markdownPostProcessors := [];
     settingTabs := 1 |}.

(** Lines 27-120: the callback, run once when the layout is ready. *)
Definition layoutReady (rt : Runtime) (p : Plugin) : Plugin :=
  match getApi rt with
  | None =>
      {| this_settings := this_settings p;
         this_isMobileDevice := this_isMobileDevice p;
         openedModals := openedModals p ++ [MissingDependencyModal];
         markdownPostProcessors := markdownPostProcessors p;
         settingTabs := settingTabs p |}
  | Some iconSC =>
      {| this_settings := this_settings p;
         this_isMobileDevice := this_isMobileDevice p;
         openedModals := openedModals p;
         markdownPostProcessors := markdownPostProcessors p ++ [iconSC];
         settingTabs := settingTabs p |}
  end.

Definition load (rt : Runtime) : Plugin := layoutReady rt (onload rt).

Definition envOf (rt : Runtime) (p : Plugin) (api : IconSC) : Env :=
  {| settings := this_settings p;
     isMobileDevice := this_isMobileDevice p;
     iconSC := api;
     importNodeEmoji := nodeEmojiImport rt |}.

(** A render of a content region: the host runs every registered post
    processor on the root [element] of the region. *)
Definition renderPass (rt : Runtime) (p : Plugin) (element : Node) (st : State)
    : Node * State :=
  fold_left (fun acc api => emojiPostProcessor (envOf rt p api) (fst acc) (snd acc))
            (markdownPostProcessors p) (element, st).

(** A session: the regions rendered after loading, in order. *)
Fixpoint session (rt : Runtime) (p : Plugin) (regions : list Node) (st : State)
    : list Node * State :=
  match regions with
  | [] => ([], st)
  | element :: rest =>
      let '(element', st1) := renderPass rt p element st in
      let '(rest', st2) := session rt p rest st1 in
      (element' :: rest', st2)
  end.

(** Lines 135-137: [saveData(this.settings)] writes the whole settings. *)
Definition saveData (s : EmojiReplacerSettings) : SavedData :=
  {| savedMappings := Some (customEmojiMappings s);
     savedFlag := Some (enableDefaultIconSearch s) |}.

End Lifecycle.

(** The elements and text nodes below a node, in document order. *)
Fixpoint descendants (n : Node) : list Node :=
  match n with
  | Text _ _ => []
  | Element _ _ cs => flat_map (fun c => c :: descendants c) cs
  end.

(** Attempts to import the emoji library among the events [evs]. *)
Definition isImport (e : Event) : bool :=
  match e with Import => true | _ => false end.

Definition importCount (evs : list Event) : nat :=
  length (filter (fun e => isImport e = true) evs).

(** Whether the module cache is filled, as a number. *)
Definition cached (st : State) : nat :=
  match emojiModule st with Some _ => 1%nat | None => 0%nat end.

(** Every [getSVGIcon(id)] among the events comes right after a
    [hasIcon(id)] for the same [id]; [prev] is the event before them. *)
Fixpoint fetchesChecked (prev : option Event) (evs : list Event) : bool :=
  match evs with
  | [] => true
  | e :: rest =>
      match e with
      | CallGetSVGIcon id =>
          match prev with
          | Some (CallHasIcon id') => bool_decide (id' = id)
          | _ => false
          end
      | _ => true
      end && fetchesChecked (Some e) rest
  end.

(** Between [st] and [st'] the collaborators were called in order: every
    icon fetched was confirmed just before, no import was attempted with
    the module cached, and none after an import that succeeded. *)
Definition orderly (env : Env) (st st' : State) : Prop :=
  exists evs,
    traced st st' evs
    /\ fetchesChecked None evs = true
    /\ (is_Some (emojiModule st) ->
        emojiModule st' = emojiModule st /\ importCount evs = 0%nat)
    /\ ((exists m, importNodeEmoji env = Return m) ->
        (importCount evs + cached st <= cached st')%nat).

(** What one traversal may leave in the place of a node: the node itself; for
    a text node one splice, the text before the first occurrence of one of
    its characters, a copy of an icon of the icon service, and the text
    after the occurrence in one text node; for an element the element with
    every child replaced by what may stand in its place. *)
Unset Elimination Schemes.
Set Elimination Schemes.

(** ** The render pass with its callbacks interleaved

    Lines 115-119 start one [async] callback for every selected element
    and wait for none of them: each callback runs until its first [await],
    then the next one starts, and what is pending goes on in the order of
    the microtask queue.  The callbacks share the tree of the region.

    The queue holds one entry for every callback that waits.  Every
    [await] takes one turn of the queue, and [latency] turns more where a
    promise of a collaborator is awaited; the further turns that the
    settling of the promise of an [async] function takes are not
    counted. *)

Record World := {
  document : Node;       (* the tree of the region, as it is by now *)
  engine : State
}.

Definition say (e : Event) (w : World) : World :=
  {| document := document w; engine := emit e (engine w) |}.

Definition cache (m : EmojiModule) (w : World) : World :=
  {| document := document w; engine := setEmojiModule m (engine w) |}.

Definition firstSome {A B : Type} (f : A -> option B) : list A -> option B :=
  fix go (l : list A) : option B :=
    match l with
    | [] => None
    | a :: r => match f a with Some b => Some b | None => go r end
    end.

(** The node of identity [uid] as it is in the tree [n] by now. *)
Fixpoint current (uid : nat) (n : Node) : option Node :=
  if bool_decide (nodeUid n = uid) then Some n
  else match n with
       | Text _ _ => None
       | Element _ _ cs => firstSome (current uid) cs
       end.

(** [node.parentNode] is not null: the node of identity [uid] is a child
    of some node of the tree. *)
Fixpoint attached (uid : nat) (n : Node) : bool :=
  match n with
  | Text _ _ => false
  | Element _ _ cs =>
      existsb (fun c => bool_decide (nodeUid c = uid) || attached uid c) cs
  end.

(** The three [insertBefore] and the [removeChild] of lines 48-51, on the
    shared tree: [nodes] take the place of the child of identity [uid]. *)
Fixpoint replaceChild (uid : nat) (nodes : list Node) (n : Node) : Node :=
  match n with
  | Text _ _ => n
  | Element u tag cs =>
      Element u tag
        (flat_map (fun c => if bool_decide (nodeUid c = uid) then nodes
                            else [replaceChild uid nodes c]) cs)
  end.

(** [replaceTextWithIcon] on the shared tree. *)
Definition replaceInDocument (textNode : Node) (emoji : jsstring) (svg : Node)
    (w : World) : bool * World :=
  let parent := attached (nodeUid textNode) (document w) in
  match replaceTextWithIcon parent textNode emoji svg (engine w) with
  | (Some nodes, st') =>
      (true, {| document := replaceChild (nodeUid textNode) nodes (document w);
                engine := st' |})
  | (None, st') => (false, {| document := document w; engine := st' |})
  end.

(** What the loop over a text node waits for at one of its [await]s,
    with the outcome that the awaited promise holds. *)
Inductive Awaited :=
| CustomSVG (r : Result (option Node))      (* line 67 *)
| CustomReplaced (ok : bool)                (* line 68 *)
| Imported (r : Result EmojiModule)         (* line 85 *)
| LucideSVG (r : Result (option Node))      (* line 96 *)
| LucideReplaced (ok : bool).               (* line 97 *)

(** A call of [processTextNodes] that is not finished: on a text node, in
    the iteration for [char] with the characters [rest] to come, where
    [wait] further turns of the queue pass before the awaited promise is
    settled; on an element, at the [await] of line 110 with the children
    [rest] of the snapshot to come. *)
Inductive Frame :=
| InText (textNode : Node) (char : jsstring) (rest : list jsstring)
         (wait : nat) (awaited : Awaited)
| InElement (rest : list Node).

(** How a stretch of synchronous code ends: the call is finished, or it
    waits, with the unfinished calls innermost first; [settled] is how the
    call ended that the innermost element waits for. *)
Inductive Outcome :=
| Finished (k : Completion)
| Pending (frames : list Frame) (settled : Completion).

(** A callback that waits in the queue. *)
Record Task := {
  frames : list Frame;
  settled : Completion
}.

Section Interleaving.

Variable env : Env.

(** The further turns of the queue that a promise of a collaborator
    ([getSVGIcon], [import]) takes to settle; 0 for a promise that is
    settled when it is awaited. *)
Variable latency : nat.

(** Lines 92-101, up to the [await] of line 96. *)
Definition lucideFrom (next : World -> Outcome * World) (m : EmojiModule)
    (textNode : Node) (char : jsstring) (rest : list jsstring) (w : World)
    : Outcome * World :=
  let w1 := say (CallFind char) w in
  match find m char with
  | Throw _ => next (say (ConsoleError "Error using node-emoji:") w1)
  | Return None => next w1
  | Return (Some key) =>
      let lucideId := lit "luc_" ++ key in
      let w2 := say (CallHasIcon lucideId) w1 in
      match hasIcon (iconSC env) lucideId with
      | Throw _ => next (say (ConsoleError "Error using node-emoji:") w2)
      | Return false => next w2
      | Return true =>
          (Pending [InText textNode char rest latency
                      (LucideSVG (getSVGIcon (iconSC env) lucideId))] Normal,
           say (CallGetSVGIcon lucideId) w2)
      end
  end.

(** Lines 74-90, up to the [await] of line 85. *)
Definition heuristicFrom (next : World -> Outcome * World) (textNode : Node)
    (char : jsstring) (rest : list jsstring) (w : World) : Outcome * World :=
  if isMobileDevice env then next w
  else if enableDefaultIconSearch (settings env) then
    let w1 := say (CallIsEmoji char) w in
    match isEmoji (iconSC env) char with
    | Throw e => (Finished (Abrupt e), w1)
    | Return false => next w1
    | Return true =>
        match emojiModule (engine w1) with
        | Some m => lucideFrom next m textNode char rest w1
        | None =>
            (Pending [InText textNode char rest latency
                        (Imported (importNodeEmoji env))] Normal,
             say Import w1)
        end
    end
  else next w.

(** The loop from the top of an iteration, up to the next [await]. *)
Fixpoint loopFrom (textNode : Node) (chars : list jsstring) (w : World)
    : Outcome * World :=
  match chars with
  | [] => (Finished Normal, w)
  | char :: rest =>
      match lookupMapping env char with
      | Some customIconId =>
          let w1 := say (CallHasIcon customIconId) w in
          match hasIcon (iconSC env) customIconId with
          | Throw e => (Finished (Abrupt e), w1)
          | Return false => heuristicFrom (loopFrom textNode rest) textNode char rest w1
          | Return true =>
              (Pending [InText textNode char rest latency
                          (CustomSVG (getSVGIcon (iconSC env) customIconId))] Normal,
               say (CallGetSVGIcon customIconId) w1)
          end
      | None => heuristicFrom (loopFrom textNode rest) textNode char rest w
      end
  end.

(** The loop from one of its [await]s, up to the next. *)
Definition resumeText (textNode : Node) (char : jsstring) (rest : list jsstring)
    (awaited : Awaited) (w : World) : Outcome * World :=
  let next := loopFrom textNode rest in
  match awaited with
  | CustomSVG (Throw e) => (Finished (Abrupt e), w)
  | CustomSVG (Return None) => heuristicFrom next textNode char rest w
  | CustomSVG (Return (Some svg)) =>
      let '(ok, w1) := replaceInDocument textNode char svg w in
      (Pending [InText textNode char rest 0 (CustomReplaced ok)] Normal, w1)
  | CustomReplaced true => (Finished Normal, w)
  | CustomReplaced false => heuristicFrom next textNode char rest w
  | Imported (Throw _) => next (say (ConsoleError "Failed to import node-emoji:") w)
  | Imported (Return m) => lucideFrom next m textNode char rest (cache m w)
  | LucideSVG (Throw _) => next (say (ConsoleError "Error using node-emoji:") w)
  | LucideSVG (Return None) => next w
  | LucideSVG (Return (Some svg)) =>
      let '(ok, w1) := replaceInDocument textNode char svg w in
      (Pending [InText textNode char rest 0 (LucideReplaced ok)] Normal, w1)
  | LucideReplaced true => (Finished Normal, w)
  | LucideReplaced false => next w
  end.

(** A call of [processTextNodes(node)], up to its first [await]; [node]
    is the node as it is by now.  On an element the first [await] is the
    one of line 110 for the first child of the snapshot. *)
Fixpoint enter (node : Node) (w : World) : Outcome * World :=
  match node with
  | Text _ text => loopFrom node (stringIterator text) w
  | Element _ _ cs =>
      match cs with
      | [] => (Finished Normal, w)
      | child :: rest =>
          match enter child w with
          | (Finished k, w1) => (Pending [InElement rest] k, w1)
          | (Pending inner k, w1) => (Pending (inner ++ [InElement rest]) k, w1)
          end
      end
  end.

(** The call for a node taken from a snapshot: a text node keeps its
    text, an element has the children that it has by now. *)
Definition enterCurrent (node : Node) (w : World) : Outcome * World :=
  enter (default node (current (nodeUid node) (document w))) w.

(** A call has ended: the call that awaits it goes to the back of the
    queue, and the callback is over when no call awaits it. *)
Definition finish (below : list Frame) (k : Completion) : option Task :=
  match below with
  | [] => None
  | _ => Some {| frames := below; settled := k |}
  end.

(** One turn of the queue for the callback [t]: its innermost call goes on
    up to its next [await] or its end. *)
Definition runJob (t : Task) (w : World) : option Task * World :=
  match frames t with
  | [] => (None, w)
  | InText textNode char rest (S wait) awaited :: below =>
      (Some {| frames := InText textNode char rest wait awaited :: below;
               settled := settled t |}, w)
  | InText textNode char rest 0 awaited :: below =>
      match resumeText textNode char rest awaited w with
      | (Finished k, w1) => (finish below k, w1)
      | (Pending inner k, w1) => (Some {| frames := inner ++ below; settled := k |}, w1)
      end
  | InElement rest :: below =>
      match settled t with
      | Abrupt e => (finish below (Abrupt e), w)
      | Normal =>
          match rest with
          | [] => (finish below Normal, w)
          | child :: rest' =>
              match enterCurrent child w with
              | (Finished k, w1) =>
                  (Some {| frames := InElement rest' :: below; settled := k |}, w1)
              | (Pending inner k, w1) =>
                  (Some {| frames := inner ++ InElement rest' :: below; settled := k |}, w1)
              end
          end
      end
  end.

(** The [forEach] of line 116: every callback is started in turn and runs
    up to its first [await]. *)
Definition startCallbacks (targets : list nat) (w : World) : list Task * World :=
  fold_left
    (fun acc target =>
       match current target (document (snd acc)) with
       | None => acc
       | Some el =>
           match enter el (snd acc) with
           | (Finished _, w1) => (fst acc, w1)
           | (Pending inner k, w1) =>
               (fst acc ++ [{| frames := inner; settled := k |}], w1)
           end
       end)
    targets ([], w).

(** The queue is worked off from its front; a callback that still waits
    after its turn goes to the back.  [None]: [fuel] turns were not
    enough. *)
Fixpoint drain (fuel : nat) (queue : list Task) (w : World) : option World :=
  match queue with
  | [] => Some w
  | t :: q =>
      match fuel with
      | O => None
      | S fuel' =>
          let '(t', w') := runJob t w in
          drain fuel' (q ++ option_list t') w'
      end
  end.

(** Lines 115-119, interleaved. *)
Definition interleavedPostProcessor (fuel : nat) (element : Node) (st : State)
    : option (Node * State) :=
  let '(queue, w) :=
    startCallbacks (querySelectorAll element) {| document := element; engine := st |} in
  match drain fuel queue w with
  | Some w' => Some (document w', engine w')
  | None => None
  end.

End Interleaving.

(** The synchronous stretch that ended as [o] belongs to a call on a text
    node that comes to the end [r] of the loop of [scan]: the call is
    finished, or it is after some turns of the queue, with the nodes of [r]
    in their [place] in the tree and the call that awaits it, if any, next
    in the queue. *)
Definition lands (env : Env) (latency : nat) (place : list Node -> Node)
    (o : Outcome * World) (r : list Node * Completion * State) : Prop :=
  let final := {| document := place (fst (fst r)); engine := snd r |} in
  match o with
  | (Finished k, w) => k = snd (fst r) /\ w = final
  | (Pending inner s, w) =>
      exists turns, forall fuel below, below <> [] ->
        drain env latency (turns + fuel) [{| frames := inner ++ below; settled := s |}] w
        = drain env latency fuel [{| frames := below; settled := snd (fst r) |}] final
  end.

(** The engine as it runs with the settings that the tab holds. *)
Definition envOfTab (t : SettingTab.Tab) (mobile : bool) (api : IconSC)
    (import : Result EmojiModule) : Env :=
  {| settings := SettingTab.pluginSettings t;
     isMobileDevice := mobile;
     iconSC := api;
     importNodeEmoji := import |}.

(** ** Concrete data used by the examples *)

Module Sample.

Definition calendar : jsstring := [0xD83D; 0xDCC5].      (* U+1F4C5 *)
Definition grinning : jsstring := [0xD83D; 0xDE00].      (* U+1F600 *)
Definition flagUS : jsstring := [0xD83C; 0xDDFA; 0xD83C; 0xDDF8].  (* U+1F1FA U+1F1F8 *)

Definition svgOf (id : jsstring) : Node :=
  Element 0 "svg" [Element 0 "path" []; Text 0 id].

(** An emoji detection in the manner of a pattern anchored at both ends:
    the string is made of emoji code points, at least one. *)
Definition knownEmoji (c : jsstring) : bool :=
  bool_decide (c = calendar) || bool_decide (c = grinning).

Definition detectEmoji (s : jsstring) : bool :=
  negb (bool_decide (s = [])) && forallb knownEmoji (stringIterator s).

Definition iconService : IconSC :=
  {| hasIcon := fun _ => Return true;
     getSVGIcon := fun id => Return (Some (svgOf id));
     isEmoji := fun s => Return (detectEmoji s) |}.

(** An icon service that fails to hand out two of its icons. *)
Definition brokenIcons : IconSC :=
  {| hasIcon := fun _ => Return true;
     getSVGIcon := fun id =>
       if bool_decide (id = lit "luc_calendar") || bool_decide (id = lit "luc_date")
       then Throw "icon data unreadable"
       else Return (Some (svgOf id));
     isEmoji := fun s => Return (detectEmoji s) |}.

Definition nodeEmoji : EmojiModule :=
  {| find := fun c =>
       if bool_decide (c = grinning) then Return (Some (lit "smile"))
       else if bool_decide (c = calendar) then Return (Some (lit "date"))
       else Return None |}.

Definition desktop (m : gmap (list N) (list N)) (flag : bool) : Env :=
  {| settings := {| customEmojiMappings := m; enableDefaultIconSearch := flag |};
     isMobileDevice := false;
     iconSC := iconService;
     importNodeEmoji := Return nodeEmoji |}.

Definition mobile (m : gmap (list N) (list N)) (flag : bool) : Env :=
  {| settings := {| customEmojiMappings := m; enableDefaultIconSearch := flag |};
     isMobileDevice := true;
     iconSC := iconService;
     importNodeEmoji := Throw "Cannot find module node-emoji" |}.

Definition start : State := {| emojiModule := None; nextUid := 100; trace := [] |}.

(** The settings tab with one mapping and the two inputs filled in. *)
Definition tab (emoji iconId : jsstring) : SettingTab.Tab :=
  {| SettingTab.pluginSettings :=
       {| customEmojiMappings := {[ calendar := lit "luc_calendar" ]};
          enableDefaultIconSearch := true |};
     SettingTab.saved := [];
     SettingTab.notices := [];
     SettingTab.emojiInput := emoji;
     SettingTab.iconInput := iconId;
     SettingTab.refreshes := 1 |}.

(** A desktop without the Icon Shortcodes plugin, and one with it. *)
Definition bare : Lifecycle.Runtime :=
  {| Lifecycle.platformIsMobile := false;
     Lifecycle.getApi := None;
     Lifecycle.nodeEmojiImport := Return nodeEmoji;
     Lifecycle.loadData :=
       Some {| Lifecycle.savedMappings := Some {[ calendar := lit "luc_calendar" ]};
               Lifecycle.savedFlag := None |} |}.

Definition equipped : Lifecycle.Runtime :=
  {| Lifecycle.platformIsMobile := false;
     Lifecycle.getApi := Some iconService;
     Lifecycle.nodeEmojiImport := Return nodeEmoji;
     Lifecycle.loadData :=
       Some {| Lifecycle.savedMappings := Some {[ calendar := lit "luc_calendar" ]};
               Lifecycle.savedFlag := None |} |}.

Definition region : Node :=
  Element 1 "div" [Element 2 "p" [Text 3 (lit "Meeting " ++ calendar ++ lit " today")]].



(** An icon service that has no icon but [luc_smile]. *)
Definition sparseIcons : IconSC :=
  {| hasIcon := fun id => Return (bool_decide (id = lit "luc_smile"));
     getSVGIcon := fun id =>
       if bool_decide (id = lit "luc_smile") then Return (Some (svgOf id))
       else Return None;
     isEmoji := fun s => Return (detectEmoji s) |}.


Definition flagGB : jsstring := [0xD83C; 0xDDEC; 0xD83C; 0xDDE7].  (* U+1F1EC U+1F1E7 *)

(** An emoji detection in the manner of a pattern for a run of emoji: the
    string is made of known emoji and of flags, at least one; a regional
    indicator alone is no emoji. *)
Definition isRegionalIndicator (c : jsstring) : bool :=
  match c with
  | [h; l] => (h =? 0xD83C) && (0xDDE6 <=? l) && (l <=? 0xDDFF)
  | _ => false
  end.

Fixpoint emojiRun (chars : list jsstring) : bool :=
  match chars with
  | [] => true
  | c :: r =>
      if knownEmoji c then emojiRun r
      else match r with
           | c' :: r' => isRegionalIndicator c && isRegionalIndicator c' && emojiRun r'
           | [] => false
           end
  end.

Definition detectRun (s : jsstring) : bool :=
  negb (bool_decide (s = [])) && emojiRun (stringIterator s).

Definition runService : IconSC :=
  {| hasIcon := fun _ => Return true;
     getSVGIcon := fun id => Return (Some (svgOf id));
     isEmoji := fun s => Return (detectRun s) |}.


(** An icon service whose icons carry no text. *)
Definition plainIcons : IconSC :=
  {| hasIcon := fun _ => Return true;
     getSVGIcon := fun _ => Return (Some (Element 0 "svg" [Element 0 "path" []]));
     isEmoji := fun s => Return (detectEmoji s) |}.

(** An emoji library whose lookup throws. *)
Definition brokenEmoji : EmojiModule :=
  {| find := fun _ => Throw "emoji data unreadable" |}.

End Sample.

Example iterate_calendar :
  stringIterator (lit "a" ++ Sample.calendar ++ lit "b")
  = [lit "a"; Sample.calendar; lit "b"].
Proof. reflexivity. Qed.

Example meeting_today :
  fst (fst (processTextNodes
    (Sample.desktop {[ Sample.calendar := lit "luc_calendar" ]} true)
    true (Text 7 (lit "Meeting " ++ Sample.calendar ++ lit " today")) Sample.start))
  = [Text 100 (lit "Meeting ");
     Element 102 "svg" [Element 103 "path" []; Text 104 (lit "luc_calendar")];
     Text 101 (lit " today")].
Proof. vm_compute. reflexivity. Qed.

(** ** Strings: searching and iterating *)

Section Strings.

Implicit Types s pat pre post c : jsstring.

Lemma startsWith_prefix pat s :
  startsWith pat s = true <-> exists r, s = pat ++ r.
Proof.
  revert s. induction pat as [|p pat IH]; intros s; simpl.
  - split; [intros _; by exists s | done].
  - destruct s as [|c s].
    + split; [done | intros [r Hr]; discriminate].
    + rewrite andb_true_iff, N.eqb_eq, IH. split.
      * intros [-> [r ->]]. by exists r.
      * intros [r Hr]. injection Hr as -> ->. split; [done | by exists r].
Qed.

Lemma startsWith_app pat s : startsWith pat (pat ++ s) = true.
Proof. apply startsWith_prefix. by exists s. Qed.

(** [indexOf] finds an occurrence, and the first one. *)
Lemma indexOf_Some s pat i :
  indexOf s pat = Some i ->
  s = take i s ++ pat ++ drop (i + length pat) s
  /\ forall j, (j < i)%nat -> startsWith pat (drop j s) = false.
Proof.
  revert i. induction s as [|u s IH]; intros i; simpl.
  - destruct (startsWith pat []) eqn:Hsw; [|done].
    intros [= <-]. apply startsWith_prefix in Hsw as [r Hr].
    symmetry in Hr. apply app_eq_nil in Hr as [-> ->]. split; [done | lia].
  - destruct (startsWith pat (u :: s)) eqn:Hsw.
    + intros [= <-]. apply startsWith_prefix in Hsw as [r Hr]. split; [|lia].
      simpl. rewrite Hr at 2. by rewrite drop_app_length.
    + destruct (indexOf s pat) as [i'|] eqn:Hi; [|done].
      intros [= <-]. destruct (IH i' eq_refl) as [Heq Hmin]. split.
      * simpl. by rewrite <- Heq.
      * intros [|j] Hj; simpl; [done | apply Hmin; lia].
Qed.

Lemma indexOf_occurs pre pat post :
  exists i, indexOf (pre ++ pat ++ post) pat = Some i /\ (i <= length pre)%nat.
Proof.
  induction pre as [|u pre IH].
  - exists 0%nat. split; [|done].
    destruct (pat ++ post) eqn:E; simpl; rewrite <- ?E, startsWith_app; done.
  - simpl. destruct (startsWith pat (u :: pre ++ pat ++ post)).
    + exists 0%nat. split; [done | lia].
    + destruct IH as (i & -> & Hi). exists (S i). split; [done | simpl; lia].
Qed.

Lemma indexOf_first pre pat post :
  (forall j, (j < length pre)%nat ->
     startsWith pat (drop j (pre ++ pat ++ post)) = false) ->
  indexOf (pre ++ pat ++ post) pat = Some (length pre).
Proof.
  intros Hfirst.
  destruct (indexOf_occurs pre pat post) as (i & Hi & Hle).
  rewrite Hi. f_equal.
  destruct (decide (i = length pre)) as [|Hne]; [done|].
  apply indexOf_Some in Hi as [Heq _].
  assert (Hsw : startsWith pat (drop i (pre ++ pat ++ post)) = true).
  { apply startsWith_prefix. exists (drop (i + length pat) (pre ++ pat ++ post)).
    rewrite Heq at 1. rewrite drop_app_length'; [done|].
    rewrite length_take, !length_app. lia. }
  rewrite Hfirst in Hsw; [done | lia].
Qed.

(** The splitting of a string around the match that [indexOf] finds. *)
Lemma split_at_match pre pat post i :
  indexOf (pre ++ pat ++ post) pat = Some i ->
  i = length pre ->
  take i (pre ++ pat ++ post) = pre
  /\ drop (i + length pat) (pre ++ pat ++ post) = post.
Proof.
  intros _ ->. split.
  - by rewrite take_app_length.
  - rewrite app_assoc. rewrite drop_app_length'; [done|]. by rewrite length_app.
Qed.

(** Induction along the steps of the string iterator. *)
Lemma stringIterator_ind (P : jsstring -> Prop) :
  P [] ->
  (forall u, P [u]) ->
  (forall u l r,
     isHighSurrogate u && isLowSurrogate l = true -> P r -> P (u :: l :: r)) ->
  (forall u l r,
     isHighSurrogate u && isLowSurrogate l = false -> P (l :: r) -> P (u :: l :: r)) ->
  forall s, P s.
Proof.
  intros Hnil Hone Hpair Hsingle s.
  assert (H : P s /\ forall u, P (u :: s)); [|apply H].
  induction s as [|l r [IH1 IH2]].
  - split; [done | apply Hone].
  - split; [apply IH2|]. intros u.
    destruct (isHighSurrogate u && isLowSurrogate l) eqn:E.
    + by apply Hpair.
    + apply Hsingle; [done | apply IH2].
Qed.

Lemma stringIterator_pair u l r :
  isHighSurrogate u && isLowSurrogate l = true ->
  stringIterator (u :: l :: r) = [u; l] :: stringIterator r.
Proof. intros H. simpl. by rewrite H. Qed.

Lemma stringIterator_single u l r :
  isHighSurrogate u && isLowSurrogate l = false ->
  stringIterator (u :: l :: r) = [u] :: stringIterator (l :: r).
Proof. intros H. cbn [stringIterator]. by rewrite H. Qed.

(** The characters iterated make up the string. *)
Lemma stringIterator_concat s : concat (stringIterator s) = s.
Proof.
  induction s as [| u | u l r Hp IH | u l r Hs IH] using stringIterator_ind.
  - done.
  - done.
  - rewrite stringIterator_pair by done. simpl. by rewrite IH.
  - rewrite stringIterator_single by done.
    change (concat ([u] :: stringIterator (l :: r)))
      with (u :: concat (stringIterator (l :: r))). by rewrite IH.
Qed.


(** Every character iterated occurs in the string. *)
Lemma stringIterator_occurs s c :
  c ∈ stringIterator s -> exists pre post, s = pre ++ c ++ post.
Proof.
  intros Hin. apply list_elem_of_split in Hin as (l1 & l2 & Hsplit).
  exists (concat l1), (concat l2).
  rewrite <- (stringIterator_concat s), Hsplit.
  by rewrite concat_app.
Qed.

Lemma stringIterator_indexOf s c :
  c ∈ stringIterator s -> is_Some (indexOf s c).
Proof.
  intros (pre & post & ->)%stringIterator_occurs.
  destruct (indexOf_occurs pre c post) as (i & -> & _). by eexists.
Qed.

End Strings.

(** ** Copies and splices *)

Lemma cloneNode_eraseUid n : forall st, eraseUid (fst (cloneNode n st)) = eraseUid n.
Proof.
  induction n as [uid data | uid tag cs IH] using Node_ind; intros st; [done|].
  cbn [cloneNode]. destruct (freshUid st) as [u st1].
  assert (Hcs : forall st, map eraseUid (fst (cloneChildren cloneNode cs st))
                           = map eraseUid cs).
  { clear st st1 u. induction IH as [|c r Hc _ IHr]; intros st; [done|].
    cbn [cloneChildren]. specialize (Hc st).
    destruct (cloneNode c st) as [c' st1]. specialize (IHr st1).
    destruct (cloneChildren cloneNode r st1) as [r' st2].
    simpl in *. by rewrite Hc, IHr. }
  specialize (Hcs st1). destruct (cloneChildren cloneNode cs st1) as [cs' st2].
  simpl in *. by rewrite Hcs.
Qed.

Lemma cloneNode_state n :
  forall st, emojiModule (snd (cloneNode n st)) = emojiModule st
             /\ trace (snd (cloneNode n st)) = trace st.
Proof.
  induction n as [uid data | uid tag cs IH] using Node_ind; intros st; [done|].
  cbn [cloneNode freshUid].
  set (st1 := {| emojiModule := emojiModule st; nextUid := S (nextUid st);
                 trace := trace st |}).
  assert (Hcs : forall st, emojiModule (snd (cloneChildren cloneNode cs st)) = emojiModule st
                           /\ trace (snd (cloneChildren cloneNode cs st)) = trace st).
  { clear st st1. induction IH as [|c r Hc _ IHr]; intros st; [done|].
    cbn [cloneChildren]. specialize (Hc st).
    destruct (cloneNode c st) as [c' st1]. specialize (IHr st1).
    destruct (cloneChildren cloneNode r st1) as [r' st2].
    simpl in *. destruct Hc as [Hc1 Hc2], IHr as [Hr1 Hr2]. split; congruence. }
  specialize (Hcs st1). destruct (cloneChildren cloneNode cs st1) as [cs' st2].
  exact Hcs.
Qed.

(** A replacement never touches the module cache nor the trace. *)
Lemma replaceTextWithIcon_state parent node emoji svg st :
  emojiModule (snd (replaceTextWithIcon parent node emoji svg st)) = emojiModule st
  /\ trace (snd (replaceTextWithIcon parent node emoji svg st)) = trace st.
Proof.
  unfold replaceTextWithIcon.
  destruct (indexOf (textContent node) emoji) as [i|]; [|done].
  cbn [createTextNode freshUid]. destruct parent; [|done].
  match goal with |- context [cloneNode svg ?s] =>
    pose proof (cloneNode_state svg s) as H; destruct (cloneNode svg s) end.
  exact H.
Qed.

(** With a parent and an occurrence of the emoji, the replacement is made,
    around the first occurrence. *)
Lemma replaceTextWithIcon_found node emoji svg st i :
  indexOf (textContent node) emoji = Some i ->
  exists graphic st',
    replaceTextWithIcon true node emoji svg st
      = (Some [Text (nextUid st) (take i (textContent node)); graphic;
               Text (S (nextUid st)) (drop (i + length emoji) (textContent node))],
         st')
    /\ eraseUid graphic = eraseUid svg.
Proof.
  intros Hi. unfold replaceTextWithIcon. rewrite Hi.
  cbn [createTextNode freshUid nextUid].
  match goal with |- context [cloneNode svg ?s] =>
    pose proof (cloneNode_eraseUid svg s) as H; destruct (cloneNode svg s) as [g st'] end.
  exists g, st'. split; [|exact H].
  unfold substring, substringFrom. by rewrite drop_0, Nat.sub_0_r.
Qed.

(** Whenever the replacement is made, it is a splice. *)
Lemma replaceTextWithIcon_spliced parent node emoji svg st nodes st' :
  replaceTextWithIcon parent node emoji svg st = (Some nodes, st') ->
  parent = true /\ spliced node emoji svg nodes.
Proof.
  unfold replaceTextWithIcon.
  destruct (indexOf (textContent node) emoji) as [i|] eqn:Hi; [|done].
  cbn [createTextNode freshUid]. destruct parent; [|done].
  match goal with |- context [cloneNode svg ?s] =>
    pose proof (cloneNode_eraseUid svg s) as H; destruct (cloneNode svg s) as [g st3] end.
  intros [= <- <-]. split; [done|].
  apply indexOf_Some in Hi as [Heq Hfirst].
  eexists _, _, _, g, _. split; [reflexivity|].
  unfold substring, substringFrom. rewrite drop_0, Nat.sub_0_r.
  split; [exact Heq|]. split; [|exact H].
  intros j Hj. apply Hfirst. rewrite length_take in Hj. lia.
Qed.

(** ** The two stages of the loop body *)

Section Stages.

Variable env : Env.

Lemma traced_refl st : traced st st [].
Proof. unfold traced. by rewrite app_nil_r. Qed.

Lemma traced_trans st1 st2 st3 evs evs' :
  traced st1 st2 evs -> traced st2 st3 evs' -> traced st1 st3 (evs ++ evs').
Proof. unfold traced. intros H1 H2. by rewrite H2, H1, app_assoc. Qed.

Lemma traced_emit e st : traced st (emit e st) [e].
Proof. done. Qed.

Lemma lookupMapping_Some char id :
  lookupMapping env char = Some id ->
  customEmojiMappings (settings env) !! char = Some id /\ id <> [].
Proof.
  unfold lookupMapping. destruct (_ !! char) as [id'|]; [|done].
  destruct id'; simpl; [done|]. by intros [= <-].
Qed.

Lemma lookupMapping_truthy char id :
  customEmojiMappings (settings env) !! char = Some id -> id <> [] ->
  lookupMapping env char = Some id.
Proof. unfold lookupMapping. intros -> Hne. by destruct id. Qed.

Lemma lookupMapping_absent char :
  customEmojiMappings (settings env) !! char = None -> lookupMapping env char = None.
Proof. unfold lookupMapping. by intros ->. Qed.

(** What the custom mapping stage does to the state: it asks the icon
    service and nothing else. *)
Lemma customMappingPath_state parent node char st :
  exists evs,
    traced st (snd (customMappingPath env parent node char st)) evs
    /\ quiet evs
    /\ emojiModule (snd (customMappingPath env parent node char st)) = emojiModule st.
Proof.
  unfold customMappingPath, quiet.
  destruct (lookupMapping env char) as [id|];
    [|exists []; split_and!; [apply traced_refl | constructor | done]].
  destruct (hasIcon (iconSC env) id) as [[|]|e];
    [|exists [CallHasIcon id]; split_and!; by repeat constructor..].
  exists [CallHasIcon id; CallGetSVGIcon id].
  destruct (getSVGIcon (iconSC env) id) as [[svg|]|e];
    [|split_and!; [unfold traced; simpl; by rewrite <- app_assoc
                  | by repeat constructor | done]..].
  pose proof (replaceTextWithIcon_state parent node char svg
                (emit (CallGetSVGIcon id) (emit (CallHasIcon id) st))) as [Hm Ht].
  destruct (replaceTextWithIcon _ _ _ _ _) as [[nodes|] st3]; simpl in *;
    (split_and!; [unfold traced; rewrite Ht; by rewrite <- app_assoc
                 | by repeat constructor | by rewrite Hm]).
Qed.

(** When the custom mapping stage replaces the node. *)
Lemma customMappingPath_Break parent node char st nodes st' :
  customMappingPath env parent node char st = (Break nodes, st') ->
  exists id svg,
    lookupMapping env char = Some id
    /\ hasIcon (iconSC env) id = Return true
    /\ getSVGIcon (iconSC env) id = Return (Some svg)
    /\ parent = true
    /\ spliced node char svg nodes
    /\ traced st st' [CallHasIcon id; CallGetSVGIcon id].
Proof.
  unfold customMappingPath.
  destruct (lookupMapping env char) as [id|]; [|done].
  destruct (hasIcon (iconSC env) id) as [[|]|e] eqn:Hhas; [|done..].
  destruct (getSVGIcon (iconSC env) id) as [[svg|]|e] eqn:Hget; [|done..].
  pose proof (replaceTextWithIcon_state parent node char svg
                (emit (CallGetSVGIcon id) (emit (CallHasIcon id) st))) as [_ Ht].
  destruct (replaceTextWithIcon _ _ _ _ _) as [[nodes'|] st3] eqn:Hrep; [|done].
  intros [= <- <-]. apply replaceTextWithIcon_spliced in Hrep as [-> Hspl].
  exists id, svg. split_and!; try done.
  unfold traced. simpl in Ht. rewrite Ht. simpl. by rewrite <- app_assoc.
Qed.

(** A mapped character whose icon there is, in a text node with a parent,
    is replaced by the custom mapping stage. *)
Lemma customMappingPath_mapped node char st id svg i :
  lookupMapping env char = Some id ->
  hasIcon (iconSC env) id = Return true ->
  getSVGIcon (iconSC env) id = Return (Some svg) ->
  indexOf (textContent node) char = Some i ->
  exists graphic st',
    customMappingPath env true node char st
      = (Break [Text (nextUid st) (take i (textContent node)); graphic;
                Text (S (nextUid st)) (drop (i + length char) (textContent node))],
         st')
    /\ eraseUid graphic = eraseUid svg.
Proof.
  intros Hlook Hhas Hget Hi. unfold customMappingPath. rewrite Hlook, Hhas, Hget.
  destruct (replaceTextWithIcon_found node char svg
              (emit (CallGetSVGIcon id) (emit (CallHasIcon id) st)) i Hi)
    as (graphic & st' & -> & Hcopy).
  by exists graphic, st'.
Qed.

(** A character without a (truthy) mapping passes the custom mapping stage
    untouched. *)
Lemma customMappingPath_unmapped parent node char st :
  lookupMapping env char = None ->
  customMappingPath env parent node char st = (Proceed, st).
Proof. unfold customMappingPath. by intros ->. Qed.

Lemma calm_refl st : calm st st.
Proof. split; [done|]. exists []. split; [apply traced_refl | constructor]. Qed.

Lemma calm_trans st1 st2 st3 : calm st1 st2 -> calm st2 st3 -> calm st1 st3.
Proof.
  intros [Hm1 (evs1 & Ht1 & Hq1)] [Hm2 (evs2 & Ht2 & Hq2)].
  split; [congruence|]. exists (evs1 ++ evs2).
  split; [by eapply traced_trans | by apply Forall_app].
Qed.

Lemma customMappingPath_calm parent node char st :
  calm st (snd (customMappingPath env parent node char st)).
Proof.
  destruct (customMappingPath_state parent node char st) as (evs & Ht & Hq & Hm).
  split; [done | by exists evs].
Qed.

Lemma availableModule_emit e st : availableModule env (emit e st) = availableModule env st.
Proof. done. Qed.

Lemma heuristicIcon_available st st' char :
  availableModule env st' = availableModule env st ->
  heuristicIcon env st' char = heuristicIcon env st char.
Proof. unfold heuristicIcon. by intros ->. Qed.

End Stages.

(** ** Substitution through a custom mapping *)

(** C1.  A text leaf reads [prefix ++ E ++ suffix]; [E] has the custom
    mapping [I], the icon service confirms [I] and hands out its graphic
    [svg].  Then the substitution for [E] puts exactly three nodes, in this
    order, in the place of the leaf: a new text node, a copy of [svg], a new
    text node.  The two texts are the leaf's text around the first
    occurrence of [E]; when the occurrence after [prefix] is the first one
    they are [prefix] and [suffix].  The loop that reaches [E] ends with
    this replacement. *)
Theorem custom_mapping_splices_leaf (env : Env) (uid : nat)
    (prefix E suffix I : jsstring) (svg : Node) (st : State) :
  customEmojiMappings (settings env) !! E = Some I ->
  I <> [] ->
  hasIcon (iconSC env) I = Return true ->
  getSVGIcon (iconSC env) I = Return (Some svg) ->
  exists before after graphic st',
    let text := prefix ++ E ++ suffix in
    let units := [Text (nextUid st) before; graphic; Text (S (nextUid st)) after] in
    customMappingPath env true (Text uid text) E st = (Break units, st')
    /\ (forall rest, scan env true (Text uid text) (E :: rest) st = (units, Normal, st'))
    /\ eraseUid graphic = eraseUid svg
    /\ text = before ++ E ++ after
    /\ (forall j, (j < length before)%nat -> startsWith E (drop j text) = false)
    /\ ((forall j, (j < length prefix)%nat -> startsWith E (drop j text) = false) ->
        before = prefix /\ after = suffix).
Proof.
  intros Hmap Hne Hhas Hget.
  destruct (indexOf_occurs prefix E suffix) as (i & Hi & Hle).
  destruct (customMappingPath_mapped env (Text uid (prefix ++ E ++ suffix)) E st I svg i)
    as (graphic & st' & Hpath & Hcopy); auto using lookupMapping_truthy.
  simpl textContent in Hpath.
  exists (take i (prefix ++ E ++ suffix)),
         (drop (i + length E) (prefix ++ E ++ suffix)), graphic, st'.
  cbv zeta. split_and!.
  - exact Hpath.
  - intros rest. cbn [scan]. by rewrite Hpath.
  - exact Hcopy.
  - by apply indexOf_Some.
  - intros j Hj. apply (indexOf_Some _ _ _ Hi). rewrite length_take in Hj. lia.
  - intros Hfirst. apply indexOf_first in Hfirst.
    rewrite Hi in Hfirst. injection Hfirst as ->.
    by apply (split_at_match prefix E suffix).
Qed.

(** The scenario of the specification: "Meeting (calendar) today" with the
    calendar mapped to [luc_calendar]. *)
Lemma custom_mapping_splices_leaf_witness :
  exists before after graphic st',
    let text := lit "Meeting " ++ Sample.calendar ++ lit " today" in
    let units := [Text 100 before; graphic; Text 101 after] in
    customMappingPath
      (Sample.desktop {[ Sample.calendar := lit "luc_calendar" ]} true)
      true (Text 7 text) Sample.calendar Sample.start = (Break units, st')
    /\ (forall rest,
          scan (Sample.desktop {[ Sample.calendar := lit "luc_calendar" ]} true)
               true (Text 7 text) (Sample.calendar :: rest) Sample.start
          = (units, Normal, st'))
    /\ eraseUid graphic = eraseUid (Sample.svgOf (lit "luc_calendar"))
    /\ text = before ++ Sample.calendar ++ after
    /\ (forall j, (j < length before)%nat ->
          startsWith Sample.calendar (drop j text) = false)
    /\ ((forall j, (j < length (lit "Meeting "))%nat ->
           startsWith Sample.calendar (drop j text) = false) ->
        before = lit "Meeting " /\ after = lit " today").
Proof.
  apply (custom_mapping_splices_leaf
           (Sample.desktop {[ Sample.calendar := lit "luc_calendar" ]} true)
           7 (lit "Meeting ") Sample.calendar (lit " today") (lit "luc_calendar")
           (Sample.svgOf (lit "luc_calendar")) Sample.start).
  - vm_compute. reflexivity.
  - discriminate.
  - reflexivity.
  - reflexivity.
Defined.

(** ** The default icon search *)

Section Heuristic.

Variable env : Env.

Lemma availableModule_same st st' :
  emojiModule st' = emojiModule st -> availableModule env st' = availableModule env st.
Proof. unfold availableModule. by intros ->. Qed.

(** The guarded body: it replaces the node only with the icon that
    [lucideIcon] names, and without such an icon it creates no node. *)
Lemma heuristicLookup_facts m parent node char st :
  let r := heuristicLookup env m parent node char st in
  emojiModule (snd r) = emojiModule st
  /\ (forall nodes, fst r = Break nodes ->
        exists svg, lucideIcon env m char = Some svg /\ parent = true
                    /\ spliced node char svg nodes)
  /\ (lucideIcon env m char = None -> nextUid (snd r) = nextUid st).
Proof.
  unfold heuristicLookup, lucideIcon.
  destruct (find m char) as [[key|]|e]; [|done..].
  destruct (hasIcon (iconSC env) (lit "luc_" ++ key)) as [[|]|e]; [|done..].
  destruct (getSVGIcon (iconSC env) (lit "luc_" ++ key)) as [[svg|]|e]; [|done..].
  match goal with |- context [replaceTextWithIcon parent node char svg ?s] =>
    pose proof (replaceTextWithIcon_state parent node char svg s) as [Hm _];
    destruct (replaceTextWithIcon parent node char svg s) as [[nodes'|] st4] eqn:Hrep
  end; simpl in *.
  - split_and!; [done | | done]. intros nodes [= <-].
    apply replaceTextWithIcon_spliced in Hrep as [-> Hspl]. by exists svg.
  - by split_and!.
Qed.

(** The search keeps the module it works with. *)
Lemma heuristicPath_available parent node char st :
  availableModule env (snd (heuristicPath env parent node char st))
  = availableModule env st.
Proof.
  unfold heuristicPath.
  destruct (enableDefaultIconSearch (settings env)); [|done].
  destruct (isEmoji (iconSC env) char) as [[|]|e]; [|done..].
  cbn [emit emojiModule].
  destruct (emojiModule st) as [m|] eqn:Hmod.
  - pose proof (heuristicLookup_facts m parent node char (emit (CallIsEmoji char) st))
      as (Hm & _ & _).
    destruct (heuristicLookup env m parent node char _) as [[| |] st'];
      simpl in *; apply availableModule_same; by rewrite ?Hm.
  - destruct (importNodeEmoji env) as [m|e] eqn:Himp.
    + pose proof (heuristicLookup_facts m parent node char
                    (setEmojiModule m (emit Import (emit (CallIsEmoji char) st))))
        as (Hm & _ & _).
      destruct (heuristicLookup env m parent node char _) as [[| |] st'];
        simpl in *; unfold availableModule; cbn [emit emojiModule];
        by rewrite ?Hm, ?Hmod, ?Himp.
    + unfold availableModule. simpl. by rewrite Hmod.
Qed.

(** The search replaces the node only with the icon it resolves. *)
Lemma heuristicPath_Break parent node char st nodes st' :
  isMobileDevice env = false ->
  heuristicPath env parent node char st = (Break nodes, st') ->
  exists svg, heuristicIcon env st char = Some svg /\ parent = true
              /\ spliced node char svg nodes.
Proof.
  intros Hdesk. unfold heuristicPath, heuristicIcon. rewrite Hdesk.
  destruct (enableDefaultIconSearch (settings env)); [|done].
  destruct (isEmoji (iconSC env) char) as [[|]|e]; [|done..].
  cbn [emit emojiModule negb]. unfold availableModule.
  destruct (emojiModule st) as [m|] eqn:Hmod.
  - pose proof (heuristicLookup_facts m parent node char (emit (CallIsEmoji char) st))
      as (_ & Hbr & _).
    destruct (heuristicLookup env m parent node char _) as [[| |] st0]; [done| |done].
    intros [= <- <-]. by apply Hbr.
  - destruct (importNodeEmoji env) as [m|e]; [|done].
    pose proof (heuristicLookup_facts m parent node char
                  (setEmojiModule m (emit Import (emit (CallIsEmoji char) st))))
      as (_ & Hbr & _).
    destruct (heuristicLookup env m parent node char _) as [[| |] st0]; [done| |done].
    intros [= <- <-]. by apply Hbr.
Qed.

(** Without an icon to resolve to, the search creates no node. *)
Lemma heuristicPath_no_icon parent node char st :
  isMobileDevice env = false ->
  heuristicIcon env st char = None ->
  nextUid (snd (heuristicPath env parent node char st)) = nextUid st.
Proof.
  intros Hdesk. unfold heuristicPath, heuristicIcon. rewrite Hdesk.
  destruct (enableDefaultIconSearch (settings env)); [|done].
  destruct (isEmoji (iconSC env) char) as [[|]|e]; [|done..].
  cbn [emit emojiModule negb]. unfold availableModule.
  destruct (emojiModule st) as [m|] eqn:Hmod.
  - intros Hnone.
    pose proof (heuristicLookup_facts m parent node char (emit (CallIsEmoji char) st))
      as (_ & _ & Huid).
    destruct (heuristicLookup env m parent node char _) as [[| |] st0];
      simpl in *; by rewrite Huid.
  - destruct (importNodeEmoji env) as [m|e]; [|done]. intros Hnone.
    pose proof (heuristicLookup_facts m parent node char
                  (setEmojiModule m (emit Import (emit (CallIsEmoji char) st))))
      as (_ & _ & Huid).
    destruct (heuristicLookup env m parent node char _) as [[| |] st0];
      simpl in *; by rewrite Huid.
Qed.

(** With the flag off the search is not even begun. *)
Lemma heuristicPath_flag_off parent node char st :
  enableDefaultIconSearch (settings env) = false ->
  heuristicPath env parent node char st = (Proceed, st).
Proof. unfold heuristicPath. by intros ->. Qed.

(** Whatever is thrown inside the [try] of the search is caught there: if
    the emoji detection itself answers, the search raises nothing. *)
Lemma heuristicPath_contains_errors parent node char st b :
  isEmoji (iconSC env) char = Return b ->
  forall e, fst (heuristicPath env parent node char st) <> Raise e.
Proof.
  intros Hemoji e. unfold heuristicPath.
  destruct (enableDefaultIconSearch (settings env)); [|done].
  rewrite Hemoji. destruct b; [|done].
  destruct (emojiModule _) as [m|].
  - by destruct (heuristicLookup env m parent node char _) as [[| |] st0].
  - destruct (importNodeEmoji env) as [m|e']; [|done].
    by destruct (heuristicLookup env m parent node char _) as [[| |] st0].
Qed.

End Heuristic.

(** ** The loop over the characters of a text node *)

Section Loop.

Variable env : Env.

Lemma scan_custom_break parent node char rest st nodes st1 :
  customMappingPath env parent node char st = (Break nodes, st1) ->
  scan env parent node (char :: rest) st = (nodes, Normal, st1).
Proof. intros H. cbn [scan]. by rewrite H. Qed.

(** A scanned character with a mapping whose icon is there ends the loop
    in the custom mapping stage. *)
Lemma scan_mapped uid text char rest id svg st :
  char ∈ stringIterator text ->
  customEmojiMappings (settings env) !! char = Some id ->
  id <> [] ->
  hasIcon (iconSC env) id = Return true ->
  getSVGIcon (iconSC env) id = Return (Some svg) ->
  exists nodes st',
    customMappingPath env true (Text uid text) char st = (Break nodes, st')
    /\ scan env true (Text uid text) (char :: rest) st = (nodes, Normal, st')
    /\ spliced (Text uid text) char svg nodes
    /\ traced st st' [CallHasIcon id; CallGetSVGIcon id]
    /\ emojiModule st' = emojiModule st.
Proof.
  intros [i Hi]%stringIterator_indexOf Hmap Hne Hhas Hget.
  pose proof (lookupMapping_truthy env char id Hmap Hne) as Hlook.
  destruct (customMappingPath_mapped env (Text uid text) char st id svg i)
    as (graphic & st' & Hpath & _); auto.
  eexists _, st'. split; [exact Hpath|].
  split; [by apply scan_custom_break|].
  destruct (customMappingPath_Break env _ _ _ _ _ _ Hpath)
    as (id' & svg' & Hlook' & _ & Hget' & _ & Hspl & Htr).
  assert (id' = id) as -> by congruence.
  assert (svg' = svg) as -> by congruence.
  split_and!; [done..|].
  destruct (customMappingPath_state env true (Text uid text) char st) as (_ & _ & _ & Hm).
  by rewrite Hpath in Hm.
Qed.

Lemma heuristicIcon_resolved st char svg :
  heuristicIcon env st char = Some svg ->
  exists id, getSVGIcon (iconSC env) id = Return (Some svg).
Proof.
  unfold heuristicIcon, lucideIcon.
  destruct (isMobileDevice env); [done|].
  destruct (negb _); [done|].
  destruct (isEmoji (iconSC env) char) as [[|]|]; [|done..].
  destruct (availableModule env st) as [m|]; [|done].
  destruct (find m char) as [[key|]|]; [|done..].
  destruct (hasIcon (iconSC env) _) as [[|]|]; [|done..].
  destruct (getSVGIcon (iconSC env) _) as [[svg'|]|] eqn:Hget; [|done..].
  intros [= <-]. by eexists.
Qed.

(** The loop ends with the node as it was, or with one splice made for
    one of the characters; the characters after that one are not looked
    at. *)
Lemma scan_outcome parent node chars :
  forall st nodes k st',
  scan env parent node chars st = (nodes, k, st') ->
  nodes = [node]
  \/ exists scanned char rest svg id,
       chars = scanned ++ char :: rest
       /\ spliced node char svg nodes
       /\ getSVGIcon (iconSC env) id = Return (Some svg)
       /\ k = Normal
       /\ forall rest', scan env parent node (scanned ++ char :: rest') st
                        = (nodes, k, st').
Proof.
  induction chars as [|char rest IH]; intros st nodes k st'; cbn [scan].
  - intros [= <- <- <-]. by left.
  - destruct (customMappingPath env parent node char st) as [[| nodes1 | e] st1] eqn:Hcustom.
    + assert (Hnext : forall st2, scan env parent node rest st2 = (nodes, k, st') ->
                nodes = [node]
                \/ exists scanned char' rest0 svg id,
                     rest = scanned ++ char' :: rest0
                     /\ spliced node char' svg nodes
                     /\ getSVGIcon (iconSC env) id = Return (Some svg)
                     /\ k = Normal
                     /\ forall rest', scan env parent node (scanned ++ char' :: rest') st2
                                      = (nodes, k, st')) by (intros; by apply IH).
      destruct (isMobileDevice env) eqn:Hmobile.
      * intros Hrest. destruct (Hnext _ Hrest)
          as [-> | (scanned & char' & rest0 & svg & id & -> & Hspl & Hget & -> & Hcut)];
          [by left | right].
        exists (char :: scanned), char', rest0, svg, id. split_and!; try done.
        intros rest'. cbn [app scan]. by rewrite Hcustom, Hmobile.
      * destruct (heuristicPath env parent node char st1) as [[| nodes2 | e] st2] eqn:Hheur.
        -- intros Hrest. destruct (Hnext _ Hrest)
             as [-> | (scanned & char' & rest0 & svg & id & -> & Hspl & Hget & -> & Hcut)];
             [by left | right].
           exists (char :: scanned), char', rest0, svg, id. split_and!; try done.
           intros rest'. cbn [app scan]. by rewrite Hcustom, Hmobile, Hheur.
        -- intros [= <- <- <-]. right.
           destruct (heuristicPath_Break env _ _ _ _ _ _ Hmobile Hheur)
             as (svg & Hicon & _ & Hspl).
           apply heuristicIcon_resolved in Hicon as [id Hget].
           exists [], char, rest, svg, id. split_and!; try done.
           intros rest'. cbn [app scan]. by rewrite Hcustom, Hmobile, Hheur.
        -- intros [= <- <- <-]. by left.
    + intros [= <- <- <-]. right.
      pose proof Hcustom as (id & svg & _ & _ & Hget & _ & Hspl & _)%customMappingPath_Break.
      exists [], char, rest, svg, id. split_and!; try done.
      intros rest'. by apply scan_custom_break.
    + intros [= <- <- <-]. by left.
Qed.

(** The loop keeps the module that the default icon search works with. *)
Lemma scan_available parent node chars :
  forall st, availableModule env (snd (scan env parent node chars st))
             = availableModule env st.
Proof.
  induction chars as [|char rest IH]; intros st; cbn [scan]; [done|].
  destruct (customMappingPath_state env parent node char st) as (_ & _ & _ & Hm).
  apply (availableModule_same env) in Hm.
  destruct (customMappingPath env parent node char st) as [[| nodes1 | e] st1];
    simpl in *; [|done..].
  destruct (isMobileDevice env); [by rewrite IH|].
  pose proof (heuristicPath_available env parent node char st1) as Hh.
  destruct (heuristicPath env parent node char st1) as [[| nodes2 | e] st2];
    simpl in *; [|congruence..].
  rewrite IH. congruence.
Qed.

(** Characters without a mapping that the default icon search does not
    resolve leave the node as it is, and no node is created. *)
Lemma scan_no_match parent node chars :
  forall st,
  (forall c, c ∈ chars ->
     lookupMapping env c = None /\ heuristicIcon env st c = None) ->
  exists k st',
    scan env parent node chars st = ([node], k, st')
    /\ nextUid st' = nextUid st.
Proof.
  induction chars as [|char rest IH]; intros st Hnone; cbn [scan].
  - by exists Normal, st.
  - destruct (Hnone char) as [Hmap Hicon]; [by left|].
    rewrite (customMappingPath_unmapped env _ _ _ _ Hmap).
    destruct (isMobileDevice env) eqn:Hmobile.
    { apply IH. intros c Hc. apply Hnone. by right. }
    pose proof (heuristicPath_available env parent node char st) as Havail.
    pose proof (heuristicPath_no_icon env parent node char st Hmobile Hicon) as Huid.
    destruct (heuristicPath env parent node char st) as [[| nodes2 | e] st2] eqn:Hheur;
      simpl in *.
    + destruct (IH st2) as (k & st' & -> & Huid').
      { intros c Hc. rewrite (heuristicIcon_available env st st2) by done.
        apply Hnone. by right. }
      exists k, st'. split; [done | congruence].
    + apply heuristicPath_Break in Hheur as (svg & Hsome & _); [|done]. congruence.
    + by exists (Abrupt e), st2.
Qed.

End Loop.

(** ** Priority of the custom mapping, and one substitution per leaf *)








(** ** The traversal of the tree *)

Section Traversal.

Variable env : Env.

Implicit Types process : Node -> State -> list Node * Completion * State.

Lemma forChildren_app process pre post st :
  forChildren process (pre ++ post) st
  = match forChildren process pre st with
    | (pre', Normal, st1) =>
        let '(post', k, st2) := forChildren process post st1 in
        (pre' ++ post', k, st2)
    | (pre', Abrupt e, st1) => (pre' ++ post, Abrupt e, st1)
    end.
Proof.
  revert st. induction pre as [|c pre IH]; intros st; cbn [app forChildren].
  - by destruct (forChildren process post st) as [[post' k] st2].
  - destruct (process c st) as [[nodes [|e]] st1].
    + rewrite IH. destruct (forChildren process pre st1) as [[pre' [|e]] st2].
      * destruct (forChildren process post st2) as [[post' k] st3].
        by rewrite app_assoc.
      * by rewrite app_assoc.
    + by rewrite app_assoc.
Qed.

Lemma forChildren_ext process process' cs :
  Forall (fun c => forall st, process c st = process' c st) cs ->
  forall st, forChildren process cs st = forChildren process' cs st.
Proof.
  induction 1 as [|c r Hc _ IH]; intros st; cbn [forChildren]; [done|].
  rewrite Hc. destruct (process' c st) as [[nodes [|e]] st1]; [|done].
  by rewrite IH.
Qed.

(** What every child's traversal keeps, the traversal of all of them keeps. *)
Lemma forChildren_keeps (R : State -> State -> Prop) process cs :
  (forall st, R st st) ->
  (forall st1 st2 st3, R st1 st2 -> R st2 st3 -> R st1 st3) ->
  Forall (fun c => forall st, R st (snd (process c st))) cs ->
  forall st, R st (snd (forChildren process cs st)).
Proof.
  intros Hrefl Htrans. induction 1 as [|c r Hc _ IH]; intros st; cbn [forChildren].
  - apply Hrefl.
  - specialize (Hc st). destruct (process c st) as [[nodes [|e]] st1]; [|done].
    specialize (IH st1). destruct (forChildren process r st1) as [[rest' k] st2].
    by eapply Htrans.
Qed.

Lemma processTextNodes_available node :
  forall parent st,
    availableModule env (snd (processTextNodes env parent node st))
    = availableModule env st.
Proof.
  induction node as [uid text | uid tag cs IH] using Node_ind; intros parent st.
  - apply scan_available.
  - cbn [processTextNodes].
    pose proof (forChildren_keeps
      (fun st st' => availableModule env st' = availableModule env st)
      (processTextNodes env true) cs) as Hkeep.
    destruct (forChildren (processTextNodes env true) cs st) as [[cs' k] st'] eqn:E.
    simpl. change st' with (snd (cs', k, st')). rewrite <- E. apply Hkeep.
    + done.
    + congruence.
    + eapply Forall_impl; [exact IH|]. intros c Hc st0. apply Hc.
Qed.

Lemma scanCustomOnly_calm parent node chars :
  forall st, calm st (snd (scanCustomOnly env parent node chars st)).
Proof.
  induction chars as [|char rest IH]; intros st; cbn [scanCustomOnly].
  - apply calm_refl.
  - pose proof (customMappingPath_calm env parent node char st) as Hc.
    destruct (customMappingPath env parent node char st) as [[| nodes | e] st1];
      simpl in *; [|done..].
    eapply calm_trans; [exact Hc | apply IH].
Qed.

(** The reference traversal never touches the default icon search. *)
Lemma customMappingsOnly_calm node :
  forall parent st, calm st (snd (customMappingsOnly env parent node st)).
Proof.
  induction node as [uid text | uid tag cs IH] using Node_ind; intros parent st.
  - apply scanCustomOnly_calm.
  - cbn [customMappingsOnly].
    pose proof (forChildren_keeps calm (customMappingsOnly env true) cs
                  calm_refl calm_trans) as Hkeep.
    destruct (forChildren (customMappingsOnly env true) cs st) as [[cs' k] st'] eqn:E.
    simpl. change st' with (snd (cs', k, st')). rewrite <- E. apply Hkeep.
    eapply Forall_impl; [exact IH|]. intros c Hc st0. apply Hc.
Qed.

(** The engine is the reference traversal as soon as every run of the
    default icon search stage is skipped or comes to nothing. *)
Lemma processTextNodes_customMappingsOnly node :
  isMobileDevice env = true \/ enableDefaultIconSearch (settings env) = false ->
  forall parent st,
    processTextNodes env parent node st = customMappingsOnly env parent node st.
Proof.
  intros Hoff.
  assert (Hscan : forall parent node chars st,
            scan env parent node chars st = scanCustomOnly env parent node chars st).
  { intros parent nd chars. induction chars as [|char rest IH]; intros st;
      cbn [scan scanCustomOnly]; [done|].
    destruct (customMappingPath env parent nd char st) as [[| nodes | e] st1]; [|done..].
    destruct Hoff as [-> | Hflag]; [apply IH|].
    rewrite heuristicPath_flag_off by done.
    destruct (isMobileDevice env); apply IH. }
  induction node as [uid text | uid tag cs IH] using Node_ind; intros parent st.
  - apply Hscan.
  - cbn [processTextNodes customMappingsOnly].
    rewrite (forChildren_ext (processTextNodes env true) (customMappingsOnly env true)); [done|].
    eapply Forall_impl; [exact IH|]. intros c Hc st0. apply Hc.
Qed.

End Traversal.

(** The reference traversal reads the mapping table and the icon service,
    and neither the platform, nor the flag, nor the emoji library. *)
Lemma customMappingsOnly_reads (env env' : Env) node :
  customEmojiMappings (settings env') = customEmojiMappings (settings env) ->
  iconSC env' = iconSC env ->
  forall parent st,
    customMappingsOnly env' parent node st = customMappingsOnly env parent node st.
Proof.
  intros Hmap Hicon.
  assert (Hpath : forall parent nd char st,
            customMappingPath env' parent nd char st
            = customMappingPath env parent nd char st).
  { intros. unfold customMappingPath, lookupMapping. by rewrite Hmap, Hicon. }
  assert (Hscan : forall parent nd chars st,
            scanCustomOnly env' parent nd chars st
            = scanCustomOnly env parent nd chars st).
  { intros parent nd chars. induction chars as [|char rest IH]; intros st;
      cbn [scanCustomOnly]; [done|].
    rewrite Hpath.
    destruct (customMappingPath env parent nd char st) as [[| nodes | e] st1]; [|done..].
    apply IH. }
  induction node as [uid text | uid tag cs IH] using Node_ind; intros parent st.
  - apply Hscan.
  - cbn [customMappingsOnly].
    rewrite (forChildren_ext (customMappingsOnly env' true) (customMappingsOnly env true)); [done|].
    eapply Forall_impl; [exact IH|]. intros c Hc st0. apply Hc.
Qed.

(** ** The default icon search switched off *)

(** C7.  With [enableDefaultIconSearch] off, a traversal makes no call of
    the default icon search (no emoji detection, no import, no lookup in
    the emoji library, nothing logged) and leaves the module cache alone,
    for any tree and so for any character of any leaf; its outcome is the
    outcome of the traversal that knows custom mappings only, which is the
    same whatever the flag and the platform are. *)
Theorem flag_off_no_default_search (env : Env) (parent : bool) (node : Node)
    (st : State) :
  enableDefaultIconSearch (settings env) = false ->
  calm st (snd (processTextNodes env parent node st))
  /\ forall env',
       customEmojiMappings (settings env') = customEmojiMappings (settings env) ->
       iconSC env' = iconSC env ->
       processTextNodes env parent node st = customMappingsOnly env' parent node st.
Proof.
  intros Hflag.
  rewrite (processTextNodes_customMappingsOnly env node) by (by right).
  split; [apply customMappingsOnly_calm|].
  intros env' Hmap Hicon. symmetry. by apply customMappingsOnly_reads.
Qed.

(** Flag off on a desktop: the grinning face, which the default icon search
    resolves, stays; the mapped calendar is replaced. *)
Lemma flag_off_no_default_search_witness :
  let env := Sample.desktop {[ Sample.calendar := lit "luc_calendar" ]} false in
  let leaf := Text 7 (Sample.grinning ++ Sample.calendar) in
  fst (fst (processTextNodes env true (Element 1 "p" [leaf]) Sample.start))
    = [Element 1 "p"
         [Text 100 Sample.grinning;
          Element 102 "svg" [Element 103 "path" []; Text 104 (lit "luc_calendar")];
          Text 101 []]]
  /\ calm Sample.start (snd (processTextNodes env true (Element 1 "p" [leaf]) Sample.start))
  /\ forall env',
       customEmojiMappings (settings env') = customEmojiMappings (settings env) ->
       iconSC env' = iconSC env ->
       processTextNodes env true (Element 1 "p" [leaf]) Sample.start
       = customMappingsOnly env' true (Element 1 "p" [leaf]) Sample.start.
Proof.
  intros env leaf. split; [vm_compute; reflexivity|].
  apply (flag_off_no_default_search env true (Element 1 "p" [leaf]) Sample.start).
  reflexivity.
Defined.

(** ** The default icon search unavailable *)

(** C8.  On a mobile device a traversal makes no call of the default icon
    search (in particular [import("node-emoji")] is never attempted) and
    leaves the module cache alone; its outcome is the outcome of the
    traversal that knows custom mappings only, which is the same on every
    platform. *)
Theorem mobile_no_default_search (env : Env) (parent : bool) (node : Node)
    (st : State) :
  isMobileDevice env = true ->
  (exists evs,
     traced st (snd (processTextNodes env parent node st)) evs
     /\ quiet evs /\ Import ∉ evs)
  /\ emojiModule (snd (processTextNodes env parent node st)) = emojiModule st
  /\ forall env',
       customEmojiMappings (settings env') = customEmojiMappings (settings env) ->
       iconSC env' = iconSC env ->
       processTextNodes env parent node st = customMappingsOnly env' parent node st.
Proof.
  intros Hmobile.
  rewrite (processTextNodes_customMappingsOnly env node) by (by left).
  destruct (customMappingsOnly_calm env node parent st) as [Hm (evs & Ht & Hq)].
  split_and!.
  - exists evs. split_and!; [done..|].
    intros Hin. unfold quiet in Hq. rewrite Forall_forall in Hq.
    by apply Hq in Hin.
  - done.
  - intros env' Hmap Hicon. symmetry. by apply customMappingsOnly_reads.
Qed.

(** Mobile, flag on: the grinning face stays, the mapped calendar is
    replaced as it is on the desktop with custom mappings only. *)
Lemma mobile_no_default_search_witness :
  let env := Sample.mobile {[ Sample.calendar := lit "luc_calendar" ]} true in
  let leaf := Text 7 (Sample.grinning ++ Sample.calendar) in
  fst (fst (processTextNodes env true (Element 1 "p" [leaf]) Sample.start))
    = [Element 1 "p"
         [Text 100 Sample.grinning;
          Element 102 "svg" [Element 103 "path" []; Text 104 (lit "luc_calendar")];
          Text 101 []]]
  /\ (exists evs,
        traced Sample.start
               (snd (processTextNodes env true (Element 1 "p" [leaf]) Sample.start)) evs
        /\ quiet evs /\ Import ∉ evs)
  /\ emojiModule (snd (processTextNodes env true (Element 1 "p" [leaf]) Sample.start))
     = emojiModule Sample.start
  /\ forall env',
       customEmojiMappings (settings env') = customEmojiMappings (settings env) ->
       iconSC env' = iconSC env ->
       processTextNodes env true (Element 1 "p" [leaf]) Sample.start
       = customMappingsOnly env' true (Element 1 "p" [leaf]) Sample.start.
Proof.
  intros env leaf. split; [vm_compute; reflexivity|].
  apply (mobile_no_default_search env true (Element 1 "p" [leaf]) Sample.start).
  reflexivity.
Defined.

(** ** Leaves without a match *)

(** C9.  A text leaf none of whose characters has a custom mapping or is
    resolved by the default icon search comes out of the traversal as the
    very same node, with the same text, and no node is created for it.
    As a child of an element it keeps its place: what stands before it is
    what its earlier siblings became, what stands after it is what its
    later siblings became.  This holds at every point of a pass, that is in
    every state with the same emoji module at hand. *)
Theorem non_matching_leaf_unchanged (env : Env) (uid : nat) (text : jsstring)
    (st : State) :
  (forall c, c ∈ stringIterator text ->
     customEmojiMappings (settings env) !! c = None
     /\ heuristicIcon env st c = None) ->
  forall st0, availableModule env st0 = availableModule env st ->
  (forall parent, exists k st',
     processTextNodes env parent (Text uid text) st0 = ([Text uid text], k, st')
     /\ nextUid st' = nextUid st0)
  /\ (forall parent u tag pre post, exists post' k st',
        processTextNodes env parent (Element u tag (pre ++ Text uid text :: post)) st0
        = ([Element u tag
              (fst (fst (forChildren (processTextNodes env true) pre st0))
               ++ Text uid text :: post')], k, st')).
Proof.
  intros Hnone.
  assert (Hleaf : forall parent st0,
            availableModule env st0 = availableModule env st ->
            exists k st',
              processTextNodes env parent (Text uid text) st0 = ([Text uid text], k, st')
              /\ nextUid st' = nextUid st0).
  { intros parent st0 Havail. cbn [processTextNodes]. apply scan_no_match.
    intros c Hc. destruct (Hnone c Hc) as [Hmap Hicon].
    split; [by apply lookupMapping_absent|].
    by rewrite (heuristicIcon_available env st st0). }
  intros st0 Havail.
  split; [intros parent; by apply Hleaf|].
  intros parent u tag pre post. cbn [processTextNodes].
  rewrite forChildren_app.
  pose proof (forChildren_keeps
    (fun st st' => availableModule env st' = availableModule env st)
    (processTextNodes env true) pre) as Hkeep.
  destruct (forChildren (processTextNodes env true) pre st0) as [[pre' [|e]] st1] eqn:Hpre.
  - destruct (Hleaf true st1) as (k & st2 & Hk & _).
    { rewrite <- Havail. change st1 with (snd (pre', Normal, st1)).
      rewrite <- Hpre. apply Hkeep.
      - done.
      - congruence.
      - apply Forall_forall. intros c _ st'. apply processTextNodes_available. }
    cbn [forChildren]. cbn [processTextNodes] in Hk. cbn [processTextNodes]. rewrite Hk.
    destruct k as [|e].
    + destruct (forChildren (processTextNodes env true) post st2) as [[post' k'] st3].
      by exists post', k', st3.
    + by exists post, (Abrupt e), st2.
  - by exists post, (Abrupt e), st1.
Qed.

(** Plain text on a desktop with the default icon search on, where the
    calendar emoji is mapped. *)
Lemma non_matching_leaf_unchanged_witness :
  let env := Sample.desktop {[ Sample.calendar := lit "luc_calendar" ]} true in
  (forall parent, exists k st',
     processTextNodes env parent (Text 7 (lit "plain text")) Sample.start
     = ([Text 7 (lit "plain text")], k, st')
     /\ nextUid st' = nextUid Sample.start)
  /\ (forall parent u tag pre post, exists post' k st',
        processTextNodes env parent
          (Element u tag (pre ++ Text 7 (lit "plain text") :: post)) Sample.start
        = ([Element u tag
              (fst (fst (forChildren (processTextNodes env true) pre Sample.start))
               ++ Text 7 (lit "plain text") :: post')], k, st')).
Proof.
  intros env.
  apply (non_matching_leaf_unchanged env 7 (lit "plain text") Sample.start);
    [|reflexivity].
  intros c Hc. vm_compute in Hc.
  repeat (apply elem_of_cons in Hc as [-> | Hc]; [split; vm_compute; reflexivity|]).
  by apply elem_of_nil in Hc.
Defined.

(** ** What a character of the scan is *)

Section CodePoints.

Variable env : Env.
Variable key : jsstring.
Hypothesis several : stringIterator key <> [key].




End CodePoints.







(** ** Errors *)

(** C5 at a failing input.  The calendar emoji is mapped to an icon that
    the service confirms and then fails to hand out.  The exception leaves
    the loop and the traversal: the grinning face that follows in the same
    leaf and the one in the next leaf, both mapped to an icon that is
    there, are not replaced. *)
Lemma custom_path_error_aborts_pass :
  let env :=
    {| settings :=
         {| customEmojiMappings := {[ Sample.calendar := lit "luc_calendar";
                                      Sample.grinning := lit "luc_smile" ]};
            enableDefaultIconSearch := true |};
       isMobileDevice := false;
       iconSC := Sample.brokenIcons;
       importNodeEmoji := Return Sample.nodeEmoji |} in
  let tree := Element 1 "p" [Text 2 (Sample.calendar ++ Sample.grinning);
                             Text 3 Sample.grinning] in
  processTextNodes env true tree Sample.start
  = ([tree], Abrupt "icon data unreadable",
     {| emojiModule := None; nextUid := 100;
        trace := [CallHasIcon (lit "luc_calendar");
                  CallGetSVGIcon (lit "luc_calendar")] |}).
Proof. vm_compute. reflexivity. Qed.

(** The same failure inside the default icon search is caught: the
    calendar is resolved to [luc_date], which the service fails to hand
    out; the error is logged, the scan goes on and replaces the grinning
    face, and the traversal goes on to the next leaf. *)
Example default_search_error_is_contained :
  let env :=
    {| settings :=
         {| customEmojiMappings := {[ Sample.grinning := lit "luc_smile" ]};
            enableDefaultIconSearch := true |};
       isMobileDevice := false;
       iconSC := Sample.brokenIcons;
       importNodeEmoji := Return Sample.nodeEmoji |} in
  let tree := Element 1 "p" [Text 2 (Sample.calendar ++ Sample.grinning);
                             Text 3 Sample.grinning] in
  let r := processTextNodes env true tree Sample.start in
  fst r = ([Element 1 "p"
              [Text 100 Sample.calendar;
               Element 102 "svg" [Element 103 "path" []; Text 104 (lit "luc_smile")];
               Text 101 [];
               Text 105 [];
               Element 107 "svg" [Element 108 "path" []; Text 109 (lit "luc_smile")];
               Text 106 []]], Normal)
  /\ ConsoleError "Error using node-emoji:" ∈ trace (snd r).
Proof. vm_compute. split; [reflexivity|]. do 5 right. left. Qed.

(** ** The keys of the mapping table *)

Section AddMapping.

Import SettingTab.

Variable api : IconSC.
Variable detect : jsstring -> bool.

(** The emoji detection of the icon service answers [detect] and throws
    nothing. *)
Hypothesis detection : forall s, isEmoji api s = Return (detect s).

Lemma onlyOneEmoji_counts chars :
  forall found,
    onlyOneEmoji api chars found
    = Return (bool_decide
        (length (filter (fun c => detect c = true) chars)
           + (if found then 1 else 0) <= 1)%nat).
Proof.
  induction chars as [|char rest IH]; intros found; cbn [onlyOneEmoji].
  - f_equal. symmetry. apply bool_decide_eq_true_2. destruct found; simpl; lia.
  - rewrite detection, filter_cons.
    destruct (detect char) eqn:Hd.
    + rewrite decide_True by done. destruct found.
      * f_equal. symmetry. apply bool_decide_eq_false_2. simpl. lia.
      * rewrite IH. f_equal. apply bool_decide_ext. simpl. lia.
    + rewrite decide_False by congruence. apply IH.
Qed.

(** When the click adds a mapping, and what it does then. *)
Lemma addMappingOnClick_accepts t :
  singleEmoji detect (emojiInput t) -> iconInput t <> [] ->
  addMappingOnClick (Some api) t
  = {| pluginSettings := setMapping (emojiInput t) (iconInput t) (pluginSettings t);
       saved := saved t ++ [setMapping (emojiInput t) (iconInput t) (pluginSettings t)];
       notices := notices t;
       emojiInput := []; iconInput := [];
       refreshes := S (refreshes t) |}.
Proof.
  intros (Hne & Hdet & Hone) Hicon. unfold addMappingOnClick.
  destruct (emojiInput t) as [|u e] eqn:He; [done|].
  destruct (iconInput t) as [|v i] eqn:Hi; [done|].
  cbn [truthy negb orb]. rewrite detection, Hdet, onlyOneEmoji_counts.
  rewrite bool_decide_eq_true_2; [done|]. unfold emojiChars in Hone. lia.
Qed.


End AddMapping.




(** C6.  A key of two emoji is stored.  The emoji detection of the icon
    service recognises a run of emoji, as the loop of lines 384-395
    presumes when it looks for a second emoji in an input already
    recognised, and it knows a flag as a whole: a regional indicator alone
    is no emoji.  With the flags of the United States and of the United
    Kingdom in the emoji field, two emoji of two code points each, the
    input is recognised, no code point of it is an emoji by itself, the loop
    finds nothing, and the click stores the two flags as one key and saves
    the settings without a notice.  With the same service two emoji of one
    code point each are rejected with the notice of line 389. *)
Lemma two_flags_are_stored_as_one_key :
  let api := Sample.runService in
  let key := Sample.flagUS ++ Sample.flagGB in
  let t := Sample.tab key (lit "luc_flags") in
  let t' := SettingTab.addMappingOnClick (Some api) t in
  let u := Sample.tab (Sample.calendar ++ Sample.grinning) (lit "luc_flags") in
  let u' := SettingTab.addMappingOnClick (Some api) u in
  (isEmoji api Sample.flagUS = Return true
   /\ isEmoji api Sample.flagGB = Return true
   /\ Sample.flagUS <> Sample.flagGB)
  /\ isEmoji api key = Return true
  /\ stringIterator key
     = [[0xD83C; 0xDDFA]; [0xD83C; 0xDDF8]; [0xD83C; 0xDDEC]; [0xD83C; 0xDDE7]]
  /\ map (isEmoji api) (stringIterator key)
     = [Return false; Return false; Return false; Return false]
  /\ SettingTab.onlyOneEmoji api (stringIterator key) false = Return true
  /\ customEmojiMappings (SettingTab.pluginSettings t') !! key = Some (lit "luc_flags")
  /\ SettingTab.pluginSettings t'
     = SettingTab.setMapping key (lit "luc_flags") (SettingTab.pluginSettings t)
  /\ SettingTab.saved t' = [SettingTab.pluginSettings t']
  /\ SettingTab.notices t' = []
  /\ (SettingTab.notices u' = ["Please enter only one emoji"%string]
      /\ SettingTab.pluginSettings u' = SettingTab.pluginSettings u
      /\ SettingTab.saved u' = []).
Proof.
  intros api key t t' u u'.
  split; [split_and!; [reflexivity | reflexivity | discriminate]|].
  split_and!; vm_compute; reflexivity.
Qed.

(** One emoji in the emoji field: added, saved, the inputs cleared. *)
Example add_single_emoji :
  let t' := SettingTab.addMappingOnClick (Some Sample.iconService)
              (Sample.tab Sample.grinning (lit "luc_smile")) in
  customEmojiMappings (SettingTab.pluginSettings t')
    = <[ Sample.grinning := lit "luc_smile" ]> {[ Sample.calendar := lit "luc_calendar" ]}
  /\ SettingTab.saved t' = [SettingTab.pluginSettings t']
  /\ SettingTab.notices t' = []
  /\ SettingTab.emojiInput t' = [].
Proof. by vm_compute. Qed.

(** Deleting a row keeps the keys that remain as they were. *)
Lemma deleteOnClick_keeps_single_emoji_keys detect emoji t :
  (forall k, is_Some (customEmojiMappings (SettingTab.pluginSettings t) !! k) ->
             SettingTab.singleEmoji detect k) ->
  forall k,
    is_Some (customEmojiMappings
               (SettingTab.pluginSettings (SettingTab.deleteOnClick emoji t)) !! k) ->
    SettingTab.singleEmoji detect k.
Proof.
  intros Hinv k. cbn. intros Hk. apply Hinv.
  destruct (decide (k = emoji)) as [-> | Hne].
  - rewrite lookup_delete_eq in Hk. by destruct Hk.
  - by rewrite lookup_delete_ne in Hk.
Qed.

(** ** The icon service missing at load *)

Lemma session_no_processor rt p :
  Lifecycle.markdownPostProcessors p = [] ->
  forall regions st, Lifecycle.session rt p regions st = (regions, st).
Proof.
  intros Hnone regions. induction regions as [|element rest IH]; intros st; [done|].
  cbn [Lifecycle.session]. unfold Lifecycle.renderPass. rewrite Hnone. cbn [fold_left].
  by rewrite IH.
Qed.

(** C10.  When [getApi()] yields nothing at load, no post processor is ever
    registered, one modal is opened, the one that explains the missing
    dependency and lists the steps to install it, and every render of the
    session hands back its region untouched, with no call made and no node
    created. *)
Theorem missing_dependency_disables_substitution (rt : Lifecycle.Runtime) :
  Lifecycle.getApi rt = None ->
  let p := Lifecycle.load rt in
  Lifecycle.markdownPostProcessors p = []
  /\ Lifecycle.openedModals p = [Lifecycle.MissingDependencyModal]
  /\ length (Lifecycle.instructions Lifecycle.MissingDependencyModal) = 6%nat
  /\ forall regions st, Lifecycle.session rt p regions st = (regions, st).
Proof.
  intros Hapi p.
  assert (Hp : Lifecycle.markdownPostProcessors p = []
               /\ Lifecycle.openedModals p = [Lifecycle.MissingDependencyModal]).
  { subst p. unfold Lifecycle.load, Lifecycle.layoutReady. by rewrite Hapi. }
  destruct Hp as [Hproc Hmodal]. split_and!; [done..|].
  by apply session_no_processor.
Qed.

Lemma missing_dependency_disables_substitution_witness :
  let p := Lifecycle.load Sample.bare in
  Lifecycle.markdownPostProcessors p = []
  /\ Lifecycle.openedModals p = [Lifecycle.MissingDependencyModal]
  /\ length (Lifecycle.instructions Lifecycle.MissingDependencyModal) = 6%nat
  /\ forall regions st, Lifecycle.session Sample.bare p regions st = (regions, st).
Proof.
  apply (missing_dependency_disables_substitution Sample.bare). reflexivity.
Defined.

(** With the icon service there, the same region is substituted and no
    modal is opened. *)
Example render_with_icon_service :
  let p := Lifecycle.load Sample.equipped in
  Lifecycle.openedModals p = []
  /\ fst (Lifecycle.session Sample.equipped p [Sample.region] Sample.start)
     = [Element 1 "div"
          [Element 2 "p"
             [Text 100 (lit "Meeting ");
              Element 102 "svg" [Element 103 "path" []; Text 104 (lit "luc_calendar")];
              Text 101 (lit " today")]]].
Proof. by vm_compute. Qed.

(** * Further properties of the engine *)

(** ** Substitution through the default icon search *)

Section Fallback.

Variable env : Env.

Lemma heuristicLookup_resolves m node char st svg i :
  lucideIcon env m char = Some svg ->
  indexOf (textContent node) char = Some i ->
  exists nodes st',
    heuristicLookup env m true node char st = (Break nodes, st')
    /\ spliced node char svg nodes
    /\ emojiModule st' = emojiModule st.
Proof.
  unfold lucideIcon, heuristicLookup. intros Hicon Hi.
  destruct (find m char) as [[key|]|e]; [|done..].
  destruct (hasIcon (iconSC env) (lit "luc_" ++ key)) as [[|]|e]; [|done..].
  destruct (getSVGIcon (iconSC env) (lit "luc_" ++ key)) as [[svg'|]|e]; [|done..].
  injection Hicon as ->.
  match goal with |- context [replaceTextWithIcon true node char svg ?s] =>
    destruct (replaceTextWithIcon_found node char svg s i Hi) as (g & st' & Hrep & _);
    pose proof (replaceTextWithIcon_state true node char svg s) as [Hm _]
  end.
  rewrite Hrep in Hm |- *. eexists _, st'. split; [done|].
  split; [|exact Hm]. by apply replaceTextWithIcon_spliced in Hrep as [_ ?].
Qed.

Lemma heuristicPath_resolves m node char st svg i :
  enableDefaultIconSearch (settings env) = true ->
  isEmoji (iconSC env) char = Return true ->
  availableModule env st = Some m ->
  lucideIcon env m char = Some svg ->
  indexOf (textContent node) char = Some i ->
  exists nodes st',
    heuristicPath env true node char st = (Break nodes, st')
    /\ spliced node char svg nodes
    /\ emojiModule st' = Some m.
Proof.
  intros Hflag Hemoji Havail Hicon Hi. unfold heuristicPath.
  rewrite Hflag, Hemoji. cbn [emit emojiModule].
  unfold availableModule in Havail.
  destruct (emojiModule st) as [m'|] eqn:Hmod.
  - injection Havail as ->.
    destruct (heuristicLookup_resolves m node char (emit (CallIsEmoji char) st) svg i)
      as (nodes & st' & -> & Hspl & Hm); [done..|].
    exists nodes, st'. by rewrite Hm.
  - destruct (importNodeEmoji env) as [m'|e]; [|done]. injection Havail as ->.
    destruct (heuristicLookup_resolves m node char
                (setEmojiModule m (emit Import (emit (CallIsEmoji char) st))) svg i)
      as (nodes & st' & -> & Hspl & Hm); [done..|].
    by exists nodes, st'.
Qed.

(** A character that the custom mapping stage lets pass and the default
    icon search resolves is replaced by the icon of the search. *)
Lemma scan_default_search node char rest st st1 m svg :
  customMappingPath env true node char st = (Proceed, st1) ->
  isMobileDevice env = false ->
  enableDefaultIconSearch (settings env) = true ->
  isEmoji (iconSC env) char = Return true ->
  availableModule env st = Some m ->
  lucideIcon env m char = Some svg ->
  is_Some (indexOf (textContent node) char) ->
  exists nodes st',
    scan env true node (char :: rest) st = (nodes, Normal, st')
    /\ spliced node char svg nodes
    /\ emojiModule st' = Some m.
Proof.
  intros Hcustom Hdesk Hflag Hemoji Havail Hicon [i Hi].
  destruct (customMappingPath_state env true node char st) as (_ & _ & _ & Hm).
  rewrite Hcustom in Hm. simpl in Hm.
  destruct (heuristicPath_resolves m node char st1 svg i)
    as (nodes & st' & Hheur & Hspl & Hm'); auto.
  { rewrite <- Havail. by apply availableModule_same. }
  exists nodes, st'. cbn [scan]. by rewrite Hcustom, Hdesk, Hheur.
Qed.

Lemma lucideIcon_Some m char key svg :
  find m char = Return (Some key) ->
  hasIcon (iconSC env) (lit "luc_" ++ key) = Return true ->
  getSVGIcon (iconSC env) (lit "luc_" ++ key) = Return (Some svg) ->
  lucideIcon env m char = Some svg.
Proof. unfold lucideIcon. by intros -> -> ->. Qed.

(** A text node without a parent is never replaced. *)
Lemma scan_detached node chars :
  forall st, fst (fst (scan env false node chars st)) = [node].
Proof.
  induction chars as [|char rest IH]; intros st; cbn [scan]; [done|].
  destruct (customMappingPath env false node char st) as [[| nodes | e] st1] eqn:Hcustom.
  - destruct (isMobileDevice env) eqn:Hmobile; [apply IH|].
    destruct (heuristicPath env false node char st1) as [[| nodes | e] st2] eqn:Hheur.
    + apply IH.
    + by destruct (heuristicPath_Break env _ _ _ _ _ _ Hmobile Hheur) as (_ & _ & ? & _).
    + done.
  - by apply customMappingPath_Break in Hcustom as (_ & _ & _ & _ & _ & ? & _).
  - done.
Qed.

(** The custom mapping stage raises only what the icon service throws
    for the mapped identifier. *)
Lemma customMappingPath_Raise parent node char st e st1 :
  customMappingPath env parent node char st = (Raise e, st1) ->
  exists id, lookupMapping env char = Some id
             /\ (hasIcon (iconSC env) id = Throw e
                 \/ getSVGIcon (iconSC env) id = Throw e).
Proof.
  unfold customMappingPath.
  destruct (lookupMapping env char) as [id|]; [|done].
  destruct (hasIcon (iconSC env) id) as [[|]|e'] eqn:Hhas; [|done|].
  - destruct (getSVGIcon (iconSC env) id) as [[svg|]|e'] eqn:Hget; [|done|].
    + by destruct (replaceTextWithIcon _ _ _ _ _) as [[?|] ?].
    + intros [= <- <-]. exists id. by split; [|right].
  - intros [= <- <-]. exists id. by split; [|left].
Qed.

End Fallback.

(** X1.  A scanned character without a custom mapping, on a desktop with
    the default icon search on: if the icon service detects it as an emoji,
    the emoji library (cached, or imported now) finds its key, and the icon
    service has the icon named [luc_] followed by the key and hands it out,
    the loop ends with the leaf spliced around the first occurrence of the
    character and a copy of that icon; the library is cached afterwards. *)
Theorem default_search_splices_leaf (env : Env) (uid : nat)
    (text char : jsstring) (rest : list jsstring) (m : EmojiModule)
    (key : jsstring) (svg : Node) (st : State) :
  char ∈ stringIterator text ->
  customEmojiMappings (settings env) !! char = None ->
  isMobileDevice env = false ->
  enableDefaultIconSearch (settings env) = true ->
  isEmoji (iconSC env) char = Return true ->
  availableModule env st = Some m ->
  find m char = Return (Some key) ->
  hasIcon (iconSC env) (lit "luc_" ++ key) = Return true ->
  getSVGIcon (iconSC env) (lit "luc_" ++ key) = Return (Some svg) ->
  exists nodes st',
    scan env true (Text uid text) (char :: rest) st = (nodes, Normal, st')
    /\ spliced (Text uid text) char svg nodes
    /\ emojiModule st' = Some m.
Proof.
  intros Hchar Hmap Hdesk Hflag Hemoji Havail Hfind Hhas Hget.
  eapply scan_default_search; eauto using lucideIcon_Some, stringIterator_indexOf.
  apply customMappingPath_unmapped. by apply lookupMapping_absent.
Qed.

(** "I (grinning face) you" with an empty mapping table. *)
Lemma default_search_splices_leaf_witness :
  let env := Sample.desktop ∅ true in
  let leaf := Text 7 (lit "I " ++ Sample.grinning ++ lit " you") in
  fst (fst (processTextNodes env true leaf Sample.start))
    = [Text 100 (lit "I ");
       Element 102 "svg" [Element 103 "path" []; Text 104 (lit "luc_smile")];
       Text 101 (lit " you")]
  /\ exists nodes st',
       scan env true leaf [Sample.grinning] Sample.start = (nodes, Normal, st')
       /\ spliced leaf Sample.grinning (Sample.svgOf (lit "luc_smile")) nodes
       /\ emojiModule st' = Some Sample.nodeEmoji.
Proof.
  intros env leaf. split; [vm_compute; reflexivity|].
  apply (default_search_splices_leaf env 7 (lit "I " ++ Sample.grinning ++ lit " you")
           Sample.grinning [] Sample.nodeEmoji (lit "smile")
           (Sample.svgOf (lit "luc_smile")) Sample.start).
  - vm_compute. do 2 right. left.
  - reflexivity.
  - reflexivity.
  - reflexivity.
  - reflexivity.
  - reflexivity.
  - reflexivity.
  - reflexivity.
  - reflexivity.
Defined.

(** X2.  A custom mapping whose icon the icon service does not have, or
    does not hand out, does not stop the character from being replaced: the
    default icon search runs after it and, where it resolves the character,
    its icon is the one spliced in. *)
Theorem missing_custom_icon_falls_back (env : Env) (uid : nat)
    (text char : jsstring) (rest : list jsstring) (id : jsstring)
    (m : EmojiModule) (key : jsstring) (svg : Node) (st : State) :
  char ∈ stringIterator text ->
  customEmojiMappings (settings env) !! char = Some id ->
  hasIcon (iconSC env) id = Return false
  \/ (hasIcon (iconSC env) id = Return true
      /\ getSVGIcon (iconSC env) id = Return None) ->
  isMobileDevice env = false ->
  enableDefaultIconSearch (settings env) = true ->
  isEmoji (iconSC env) char = Return true ->
  availableModule env st = Some m ->
  find m char = Return (Some key) ->
  hasIcon (iconSC env) (lit "luc_" ++ key) = Return true ->
  getSVGIcon (iconSC env) (lit "luc_" ++ key) = Return (Some svg) ->
  exists nodes st',
    scan env true (Text uid text) (char :: rest) st = (nodes, Normal, st')
    /\ spliced (Text uid text) char svg nodes.
Proof.
  intros Hchar Hmap Hmissing Hdesk Hflag Hemoji Havail Hfind Hhas Hget.
  assert (Hcustom : exists st1,
            customMappingPath env true (Text uid text) char st = (Proceed, st1)).
  { unfold customMappingPath, lookupMapping. rewrite Hmap.
    destruct (truthy id); [|by eexists].
    destruct Hmissing as [-> | [-> ->]]; by eexists. }
  destruct Hcustom as [st1 Hcustom].
  destruct (scan_default_search env (Text uid text) char rest st st1 m svg)
    as (nodes & st' & Hscan & Hspl & _);
    eauto using lucideIcon_Some, stringIterator_indexOf.
Qed.

(** The grinning face is mapped to an icon that is not there; the default
    icon search resolves it to [luc_smile]. *)
Lemma missing_custom_icon_falls_back_witness :
  let env :=
    {| settings :=
         {| customEmojiMappings := {[ Sample.grinning := lit "luc_happy" ]};
            enableDefaultIconSearch := true |};
       isMobileDevice := false;
       iconSC := Sample.sparseIcons;
       importNodeEmoji := Return Sample.nodeEmoji |} in
  let leaf := Text 7 (Sample.grinning ++ lit "!") in
  exists nodes st',
    scan env true leaf [Sample.grinning] Sample.start = (nodes, Normal, st')
    /\ spliced leaf Sample.grinning (Sample.svgOf (lit "luc_smile")) nodes.
Proof.
  intros env leaf.
  apply (missing_custom_icon_falls_back env 7 (Sample.grinning ++ lit "!")
           Sample.grinning [] (lit "luc_happy") Sample.nodeEmoji (lit "smile")
           (Sample.svgOf (lit "luc_smile")) Sample.start).
  - vm_compute. left.
  - vm_compute. reflexivity.
  - left. reflexivity.
  - reflexivity.
  - reflexivity.
  - reflexivity.
  - reflexivity.
  - reflexivity.
  - reflexivity.
  - reflexivity.
Defined.

(** X3.  A text node without a parent comes out of the traversal as it
    is, whatever its text, the mapping table and the collaborators are. *)
Theorem detached_text_node_unchanged (env : Env) (uid : nat) (text : jsstring)
    (st : State) :
  fst (fst (processTextNodes env false (Text uid text) st)) = [Text uid text].
Proof. cbn [processTextNodes]. apply scan_detached. Qed.

(** X4.  [replaceTextWithIcon] answers [true] exactly when the text node
    has a parent and the emoji occurs in its text; when the emoji does not
    occur, nothing is created and the state is as it was. *)
Theorem replaceTextWithIcon_succeeds_iff (parent : bool) (node : Node)
    (emoji : jsstring) (svg : Node) (st : State) :
  (is_Some (fst (replaceTextWithIcon parent node emoji svg st))
   <-> parent = true /\ exists pre post, textContent node = pre ++ emoji ++ post)
  /\ ((forall pre post, textContent node <> pre ++ emoji ++ post) ->
      replaceTextWithIcon parent node emoji svg st = (None, st)).
Proof.
  split.
  - split.
    + intros [nodes Hnodes].
      destruct (replaceTextWithIcon parent node emoji svg st) as [o st'] eqn:Hrep.
      simpl in Hnodes. subst o.
      apply replaceTextWithIcon_spliced in Hrep
        as [-> (u1 & u2 & before & g & after & _ & Htext & _)].
      split; [done|]. by exists before, after.
    + intros [-> (pre & post & Htext)].
      destruct (indexOf_occurs pre emoji post) as (i & Hi & _).
      rewrite <- Htext in Hi.
      destruct (replaceTextWithIcon_found node emoji svg st i Hi) as (g & st' & -> & _).
      by eexists.
  - intros Habsent. unfold replaceTextWithIcon.
    destruct (indexOf (textContent node) emoji) as [i|] eqn:Hi; [|done].
    apply indexOf_Some in Hi as [Heq _]. by apply Habsent in Heq.
Qed.

(** ** Errors that stay inside the default icon search *)

Section Containment.

Variable env : Env.

(** The emoji detection answers, and so does the icon service for every
    icon of the mapping table. *)
Hypothesis detection_answers : forall c, exists b, isEmoji (iconSC env) c = Return b.
Hypothesis mapped_icons_answer :
  forall c id, customEmojiMappings (settings env) !! c = Some id ->
    (exists b, hasIcon (iconSC env) id = Return b)
    /\ (exists o, getSVGIcon (iconSC env) id = Return o).

Lemma scan_completes parent node chars :
  forall st, snd (fst (scan env parent node chars st)) = Normal.
Proof.
  induction chars as [|char rest IH]; intros st; cbn [scan]; [done|].
  destruct (customMappingPath env parent node char st) as [[| nodes | e] st1] eqn:Hcustom.
  - destruct (isMobileDevice env); [apply IH|].
    destruct (detection_answers char) as [b Hb].
    pose proof (heuristicPath_contains_errors env parent node char st1 b Hb) as Hno.
    destruct (heuristicPath env parent node char st1) as [[| nodes | e] st2];
      [apply IH | done | by destruct (Hno e)].
  - done.
  - apply customMappingPath_Raise in Hcustom as (id & Hlook & Hthrow).
    apply lookupMapping_Some in Hlook as [Hmap _].
    destruct (mapped_icons_answer char id Hmap) as [[b Hb] [o Ho]].
    destruct Hthrow; congruence.
Qed.

Lemma processTextNodes_completes node :
  forall parent st, snd (fst (processTextNodes env parent node st)) = Normal.
Proof.
  induction node as [uid text | uid tag cs IH] using Node_ind; intros parent st.
  - apply scan_completes.
  - cbn [processTextNodes].
    assert (Hcs : forall st, snd (fst (forChildren (processTextNodes env true) cs st))
                             = Normal).
    { clear st. induction IH as [|c r Hc _ IHr]; intros st; cbn [forChildren]; [done|].
      specialize (Hc true st).
      destruct (processTextNodes env true c st) as [[nodes k] st1]. simpl in Hc. subst k.
      specialize (IHr st1).
      by destruct (forChildren (processTextNodes env true) r st1) as [[rest' k] st2]. }
    specialize (Hcs st).
    by destruct (forChildren (processTextNodes env true) cs st) as [[cs' k] st'].
Qed.

End Containment.

(** X5.  If the emoji detection of the icon service answers for every
    character, and [hasIcon] and [getSVGIcon] answer for every icon of the
    mapping table, the traversal of any tree runs to its end: nothing that
    the import of the emoji library, its lookup, or the icon service asked
    for an icon of the default search throws leaves the loop. *)
Theorem default_search_errors_are_contained (env : Env) (parent : bool)
    (node : Node) (st : State) :
  (forall c, exists b, isEmoji (iconSC env) c = Return b) ->
  (forall c id, customEmojiMappings (settings env) !! c = Some id ->
     (exists b, hasIcon (iconSC env) id = Return b)
     /\ (exists o, getSVGIcon (iconSC env) id = Return o)) ->
  snd (fst (processTextNodes env parent node st)) = Normal.
Proof. intros Hdet Hmapped. by apply processTextNodes_completes. Qed.

(** The lookup of the emoji library throws, and the icon service fails to
    hand out an icon of the default search; the grinning face is mapped. *)
Lemma default_search_errors_are_contained_witness :
  let env :=
    {| settings :=
         {| customEmojiMappings := {[ Sample.grinning := lit "luc_smile" ]};
            enableDefaultIconSearch := true |};
       isMobileDevice := false;
       iconSC := Sample.brokenIcons;
       importNodeEmoji := Return Sample.brokenEmoji |} in
  let tree := Element 1 "p" [Text 2 (Sample.calendar ++ Sample.grinning);
                             Text 3 Sample.calendar] in
  snd (fst (processTextNodes env true tree Sample.start)) = Normal.
Proof.
  intros env tree.
  apply (default_search_errors_are_contained env true tree Sample.start).
  - intros c. by eexists.
  - intros c id Hmap. cbn in Hmap.
    apply lookup_singleton_Some in Hmap as [<- <-]. split; by eexists.
Defined.

(** ** The import of the emoji library *)

Section Supply.

Variable env : Env.

Lemma cloneNode_supply n :
  forall st st', nextUid st = nextUid st' ->
    fst (cloneNode n st) = fst (cloneNode n st')
    /\ nextUid (snd (cloneNode n st)) = nextUid (snd (cloneNode n st')).
Proof.
  induction n as [uid data | uid tag cs IH] using Node_ind; intros st st' Huid.
  - cbn. by rewrite Huid.
  - cbn [cloneNode freshUid]. rewrite Huid.
    set (s1 := {| emojiModule := emojiModule st; nextUid := S (nextUid st');
                  trace := trace st |}).
    set (s1' := {| emojiModule := emojiModule st'; nextUid := S (nextUid st');
                   trace := trace st' |}).
    assert (Hcs : forall s s', nextUid s = nextUid s' ->
              fst (cloneChildren cloneNode cs s) = fst (cloneChildren cloneNode cs s')
              /\ nextUid (snd (cloneChildren cloneNode cs s))
                 = nextUid (snd (cloneChildren cloneNode cs s'))).
    { clear st st' Huid s1 s1'. induction IH as [|c r Hc _ IHr]; intros s s' Hs; [done|].
      cbn [cloneChildren]. destruct (Hc s s' Hs) as [Hc1 Hc2].
      destruct (cloneNode c s) as [c1 t1], (cloneNode c s') as [c1' t1'].
      simpl in Hc1, Hc2. destruct (IHr t1 t1' Hc2) as [Hr1 Hr2].
      destruct (cloneChildren cloneNode r t1) as [r1 t2],
               (cloneChildren cloneNode r t1') as [r1' t2'].
      simpl in *. by subst. }
    destruct (Hcs s1 s1' eq_refl) as [H1 H2].
    destruct (cloneChildren cloneNode cs s1) as [cs1 t],
             (cloneChildren cloneNode cs s1') as [cs1' t'].
    simpl in *. by subst.
Qed.

(** The nodes that a replacement creates depend on the state only through
    the supply of identities. *)
Lemma replaceTextWithIcon_supply parent node emoji svg st st' :
  nextUid st = nextUid st' ->
  fst (replaceTextWithIcon parent node emoji svg st)
  = fst (replaceTextWithIcon parent node emoji svg st')
  /\ nextUid (snd (replaceTextWithIcon parent node emoji svg st))
     = nextUid (snd (replaceTextWithIcon parent node emoji svg st')).
Proof.
  intros Huid. unfold replaceTextWithIcon.
  destruct (indexOf (textContent node) emoji) as [i|]; [|done].
  cbn [createTextNode freshUid nextUid]. rewrite Huid.
  destruct parent; [|done].
  match goal with |- context [fst (let '(_, _) := cloneNode svg ?s in _) = 
                              fst (let '(_, _) := cloneNode svg ?s' in _)] =>
    destruct (cloneNode_supply svg s s' eq_refl) as [H1 H2];
    destruct (cloneNode svg s) as [g t], (cloneNode svg s') as [g' t']
  end.
  simpl in *. by subst.
Qed.

Lemma customMappingPath_supply parent node char st st' :
  nextUid st = nextUid st' ->
  fst (customMappingPath env parent node char st)
  = fst (customMappingPath env parent node char st')
  /\ nextUid (snd (customMappingPath env parent node char st))
     = nextUid (snd (customMappingPath env parent node char st')).
Proof.
  intros Huid. unfold customMappingPath.
  destruct (lookupMapping env char) as [id|]; [|done].
  destruct (hasIcon (iconSC env) id) as [[|]|e]; [|done..].
  destruct (getSVGIcon (iconSC env) id) as [[svg|]|e]; [|done..].
  match goal with |- context [replaceTextWithIcon parent node char svg ?s] =>
    match goal with |- context [snd (let '(_, _) := replaceTextWithIcon parent node char svg ?s' in _)] =>
      destruct (replaceTextWithIcon_supply parent node char svg s s' Huid) as [H1 H2]
    end
  end.
  destruct (replaceTextWithIcon parent node char svg _) as [[nodes|] t],
           (replaceTextWithIcon parent node char svg _) as [[nodes'|] t'];
    simpl in *; by simplify_eq.
Qed.

End Supply.

Section FailedImport.

Variable env : Env.
Variable reason : string.
Hypothesis import_fails : importNodeEmoji env = Throw reason.
Hypothesis detection_answers : forall c, exists b, isEmoji (iconSC env) c = Return b.

(** With no module cached and the import failing, the default icon search
    comes to nothing: no node is created and the cache stays empty. *)
Lemma heuristicPath_failed_import parent node char st :
  emojiModule st = None ->
  exists st', heuristicPath env parent node char st = (Proceed, st')
              /\ nextUid st' = nextUid st /\ emojiModule st' = None.
Proof.
  intros Hmod. unfold heuristicPath.
  destruct (enableDefaultIconSearch (settings env)); [|by eexists].
  destruct (detection_answers char) as [[|] ->]; [|by eexists].
  cbn [emit emojiModule]. rewrite Hmod, import_fails. by eexists.
Qed.

Lemma scan_failed_import parent node chars :
  forall st st',
    nextUid st = nextUid st' -> emojiModule st = None ->
    fst (scan env parent node chars st) = fst (scanCustomOnly env parent node chars st')
    /\ nextUid (snd (scan env parent node chars st))
       = nextUid (snd (scanCustomOnly env parent node chars st'))
    /\ emojiModule (snd (scan env parent node chars st)) = None.
Proof.
  induction chars as [|char rest IH]; intros st st' Huid Hmod;
    cbn [scan scanCustomOnly]; [done|].
  destruct (customMappingPath_supply env parent node char st st' Huid) as [Hctl Huid1].
  destruct (customMappingPath_state env parent node char st) as (_ & _ & _ & Hm).
  destruct (customMappingPath env parent node char st) as [ctl st1],
           (customMappingPath env parent node char st') as [ctl' st1'].
  simpl in Hctl, Huid1, Hm. subst ctl'. rewrite Hmod in Hm.
  destruct ctl as [| nodes | e]; [|done..].
  destruct (isMobileDevice env); [by apply IH|].
  destruct (heuristicPath_failed_import parent node char st1 Hm)
    as (st2 & -> & Huid2 & Hm2).
  apply IH; congruence.
Qed.

Lemma processTextNodes_failed_import node :
  forall parent st st',
    nextUid st = nextUid st' -> emojiModule st = None ->
    fst (processTextNodes env parent node st) = fst (customMappingsOnly env parent node st')
    /\ nextUid (snd (processTextNodes env parent node st))
       = nextUid (snd (customMappingsOnly env parent node st'))
    /\ emojiModule (snd (processTextNodes env parent node st)) = None.
Proof.
  induction node as [uid text | uid tag cs IH] using Node_ind; intros parent st st' Huid Hmod.
  - by apply scan_failed_import.
  - cbn [processTextNodes customMappingsOnly].
    assert (Hcs : forall st st',
              nextUid st = nextUid st' -> emojiModule st = None ->
              fst (forChildren (processTextNodes env true) cs st)
              = fst (forChildren (customMappingsOnly env true) cs st')
              /\ nextUid (snd (forChildren (processTextNodes env true) cs st))
                 = nextUid (snd (forChildren (customMappingsOnly env true) cs st'))
              /\ emojiModule (snd (forChildren (processTextNodes env true) cs st)) = None).
    { clear st st' Huid Hmod.
      induction IH as [|c r Hc _ IHr]; intros st st' Huid Hmod; cbn [forChildren]; [done|].
      destruct (Hc true st st' Huid Hmod) as (H1 & H2 & H3).
      destruct (processTextNodes env true c st) as [[nodes k] st1],
               (customMappingsOnly env true c st') as [[nodes' k'] st1'].
      simpl in H1, H2, H3. injection H1 as <- <-.
      destruct k as [|e]; [|done].
      destruct (IHr st1 st1' H2 H3) as (G1 & G2 & G3).
      destruct (forChildren (processTextNodes env true) r st1) as [[rest k] st2],
               (forChildren (customMappingsOnly env true) r st1') as [[rest' k'] st2'].
      simpl in G1, G2, G3. by injection G1 as <- <-. }
    destruct (Hcs st st' Huid Hmod) as (H1 & H2 & H3).
    destruct (forChildren (processTextNodes env true) cs st) as [[cs1 k] st1],
             (forChildren (customMappingsOnly env true) cs st') as [[cs1' k'] st1'].
    simpl in H1, H2, H3. by injection H1 as <- <-.
Qed.

End FailedImport.

(** X6.  When the import of the emoji library fails (and the emoji
    detection answers), a traversal that starts with no module cached ends
    as the traversal that knows custom mappings only: the same nodes stand
    in the tree and it completes the same way.  The failure is not fatal,
    custom mappings still apply, and the cache stays empty, so that the
    import is tried again for the next emoji. *)
Theorem failed_import_is_not_fatal (env : Env) (reason : string)
    (parent : bool) (node : Node) (st : State) :
  importNodeEmoji env = Throw reason ->
  (forall c, exists b, isEmoji (iconSC env) c = Return b) ->
  emojiModule st = None ->
  fst (processTextNodes env parent node st) = fst (customMappingsOnly env parent node st)
  /\ emojiModule (snd (processTextNodes env parent node st)) = None.
Proof.
  intros Himp Hdet Hmod.
  destruct (processTextNodes_failed_import env reason Himp Hdet node parent st st)
    as (H1 & _ & H3); done.
Qed.

(** A desktop on which [node-emoji] cannot be loaded: the grinning face
    stays, the mapped calendar is replaced, the failed import is logged. *)
Lemma failed_import_is_not_fatal_witness :
  let env :=
    {| settings :=
         {| customEmojiMappings := {[ Sample.calendar := lit "luc_calendar" ]};
            enableDefaultIconSearch := true |};
       isMobileDevice := false;
       iconSC := Sample.iconService;
       importNodeEmoji := Throw "Cannot find module node-emoji" |} in
  let tree := Element 1 "p" [Text 2 (Sample.grinning ++ Sample.calendar)] in
  fst (processTextNodes env true tree Sample.start)
    = ([Element 1 "p"
          [Text 100 Sample.grinning;
           Element 102 "svg" [Element 103 "path" []; Text 104 (lit "luc_calendar")];
           Text 101 []]], Normal)
  /\ trace (snd (processTextNodes env true tree Sample.start))
     = [CallIsEmoji Sample.grinning; Import;
        ConsoleError "Failed to import node-emoji:";
        CallHasIcon (lit "luc_calendar"); CallGetSVGIcon (lit "luc_calendar")]
  /\ fst (processTextNodes env true tree Sample.start)
     = fst (customMappingsOnly env true tree Sample.start)
  /\ emojiModule (snd (processTextNodes env true tree Sample.start)) = None.
Proof.
  intros env tree. split; [vm_compute; reflexivity|]. split; [vm_compute; reflexivity|].
  apply (failed_import_is_not_fatal env "Cannot find module node-emoji" true tree
           Sample.start).
  - reflexivity.
  - intros c. by eexists.
  - reflexivity.
Defined.

(** ** The order of the calls *)

Section Order.

Variable env : Env.

Lemma fetchesChecked_any prev evs :
  fetchesChecked None evs = true -> fetchesChecked prev evs = true.
Proof. destruct evs as [|[]]; simpl; try done. Qed.

Lemma fetchesChecked_app prev evs evs' :
  fetchesChecked prev evs = true -> fetchesChecked None evs' = true ->
  fetchesChecked prev (evs ++ evs') = true.
Proof.
  revert prev. induction evs as [|e evs IH]; intros prev; simpl.
  - intros _. apply fetchesChecked_any.
  - intros [He Hevs]%andb_true_iff Hevs'. rewrite He. simpl. by apply IH.
Qed.

Lemma importCount_app evs evs' :
  importCount (evs ++ evs') = (importCount evs + importCount evs')%nat.
Proof. unfold importCount. by rewrite filter_app, length_app. Qed.

Lemma orderly_refl st : orderly env st st.
Proof.
  exists []. split_and!; [apply traced_refl | done | done |].
  intros _. simpl. lia.
Qed.

Lemma orderly_trans st1 st2 st3 :
  orderly env st1 st2 -> orderly env st2 st3 -> orderly env st1 st3.
Proof.
  intros (evs & Ht & Hf & Hc & Hi) (evs' & Ht' & Hf' & Hc' & Hi').
  exists (evs ++ evs'). split_and!.
  - by eapply traced_trans.
  - by apply fetchesChecked_app.
  - intros Hsome. destruct (Hc Hsome) as [Hm Hn]. rewrite <- Hm in Hsome.
    destruct (Hc' Hsome) as [Hm' Hn']. rewrite importCount_app. split; [congruence | lia].
  - intros Himp. specialize (Hi Himp). specialize (Hi' Himp).
    rewrite importCount_app. lia.
Qed.

(** A step that leaves the module cache alone and whose events [evs]
    hold no import and no unconfirmed fetch. *)
Lemma orderly_quiet_step st st' evs :
  traced st st' evs -> fetchesChecked None evs = true -> importCount evs = 0%nat ->
  emojiModule st' = emojiModule st ->
  orderly env st st'.
Proof.
  intros Ht Hf Hn Hm. exists evs. split_and!; [done..| |].
  - by intros _.
  - intros _. unfold cached. rewrite Hm, Hn. done.
Qed.

Lemma fetch_after_check id : fetchesChecked None [CallHasIcon id; CallGetSVGIcon id] = true.
Proof. simpl. by rewrite bool_decide_eq_true_2. Qed.

Lemma customMappingPath_orderly parent node char st :
  orderly env st (snd (customMappingPath env parent node char st)).
Proof.
  unfold customMappingPath.
  destruct (lookupMapping env char) as [id|]; [|apply orderly_refl].
  destruct (hasIcon (iconSC env) id) as [[|]|e];
    [|by apply (orderly_quiet_step _ _ [CallHasIcon id])..].
  destruct (getSVGIcon (iconSC env) id) as [[svg|]|e].
  - pose proof (replaceTextWithIcon_state parent node char svg
                  (emit (CallGetSVGIcon id) (emit (CallHasIcon id) st))) as [Hm Ht].
    destruct (replaceTextWithIcon _ _ _ _ _) as [[nodes|] st3]; simpl in *;
      (apply (orderly_quiet_step _ _ [CallHasIcon id; CallGetSVGIcon id]);
       [unfold traced; rewrite Ht; by rewrite <- app_assoc
       | apply fetch_after_check | done | done]).
  - apply (orderly_quiet_step _ _ [CallHasIcon id; CallGetSVGIcon id]);
      [unfold traced; simpl; by rewrite <- app_assoc | apply fetch_after_check | done..].
  - apply (orderly_quiet_step _ _ [CallHasIcon id; CallGetSVGIcon id]);
      [unfold traced; simpl; by rewrite <- app_assoc | apply fetch_after_check | done..].
Qed.

(** The guarded body of the default icon search, with the error it may log. *)
Lemma heuristicLookup_orderly m parent node char st :
  exists evs,
    traced st (snd (heuristicLookup env m parent node char st)) evs
    /\ fetchesChecked None evs = true
    /\ fetchesChecked None (evs ++ [ConsoleError "Error using node-emoji:"]) = true
    /\ importCount evs = 0%nat
    /\ emojiModule (snd (heuristicLookup env m parent node char st)) = emojiModule st.
Proof.
  unfold heuristicLookup.
  destruct (find m char) as [[key|]|e];
    [|by exists [CallFind char]..].
  destruct (hasIcon (iconSC env) (lit "luc_" ++ key)) as [[|]|e];
    [|exists [CallFind char; CallHasIcon (lit "luc_" ++ key)];
      split_and!; [unfold traced; simpl; by rewrite <- app_assoc | done..]..].
  exists [CallFind char; CallHasIcon (lit "luc_" ++ key);
          CallGetSVGIcon (lit "luc_" ++ key)].
  assert (Hf : forall tail,
            fetchesChecked None
              ([CallFind char; CallHasIcon (lit "luc_" ++ key);
                CallGetSVGIcon (lit "luc_" ++ key)] ++ tail)
            = fetchesChecked (Some (CallGetSVGIcon (lit "luc_" ++ key))) tail).
  { intros tail. simpl. by rewrite bool_decide_eq_true_2. }
  destruct (getSVGIcon (iconSC env) (lit "luc_" ++ key)) as [[svg|]|e].
  - match goal with |- context [replaceTextWithIcon parent node char svg ?s] =>
      pose proof (replaceTextWithIcon_state parent node char svg s) as [Hm Ht];
      destruct (replaceTextWithIcon parent node char svg s) as [[nodes|] st4]
    end; simpl in Hm, Ht; simpl snd;
      (split_and!; [unfold traced; rewrite Ht; simpl; by rewrite <- !app_assoc
                   | by rewrite <- (app_nil_r [_; _; _]), Hf
                   | by rewrite Hf | done | done]).
  - split_and!; [unfold traced; simpl; by rewrite <- !app_assoc
                | by rewrite <- (app_nil_r [_; _; _]), Hf | by rewrite Hf | done | done].
  - split_and!; [unfold traced; simpl; by rewrite <- !app_assoc
                | by rewrite <- (app_nil_r [_; _; _]), Hf | by rewrite Hf | done | done].
Qed.

End Order.

Section OrderOfTraversal.

Variable env : Env.

Lemma heuristicPath_orderly parent node char st :
  orderly env st (snd (heuristicPath env parent node char st)).
Proof.
  unfold heuristicPath.
  destruct (enableDefaultIconSearch (settings env)); [|apply orderly_refl].
  destruct (isEmoji (iconSC env) char) as [[|]|e];
    [|by apply (orderly_quiet_step _ _ _ [CallIsEmoji char])..].
  cbn [emit emojiModule].
  destruct (emojiModule st) as [m|] eqn:Hmod.
  - destruct (heuristicLookup_orderly env m parent node char (emit (CallIsEmoji char) st))
      as (evs & Ht & Hf & Hf' & Hn & Hm).
    destruct (heuristicLookup env m parent node char _) as [[| nodes | e] st'];
      simpl in Ht, Hm |- *.
    + apply (orderly_quiet_step _ _ _ ([CallIsEmoji char] ++ evs)).
      * unfold traced in *. rewrite Ht. simpl. by rewrite <- app_assoc.
      * by apply fetchesChecked_app.
      * by rewrite importCount_app, Hn.
      * congruence.
    + apply (orderly_quiet_step _ _ _ ([CallIsEmoji char] ++ evs)).
      * unfold traced in *. rewrite Ht. simpl. by rewrite <- app_assoc.
      * by apply fetchesChecked_app.
      * by rewrite importCount_app, Hn.
      * congruence.
    + apply (orderly_quiet_step _ _ _
               ([CallIsEmoji char] ++ evs ++ [ConsoleError "Error using node-emoji:"])).
      * unfold traced in *. simpl. rewrite Ht. simpl. by rewrite <- !app_assoc.
      * by apply fetchesChecked_app.
      * by rewrite !importCount_app, Hn.
      * simpl. congruence.
  - destruct (importNodeEmoji env) as [m|e] eqn:Himp.
    + destruct (heuristicLookup_orderly env m parent node char
                  (setEmojiModule m (emit Import (emit (CallIsEmoji char) st))))
        as (evs & Ht & Hf & Hf' & Hn & Hm).
      assert (Hgoal : forall st' tail,
                trace st' = (trace st ++ [CallIsEmoji char; Import] ++ evs) ++ tail ->
                fetchesChecked None (evs ++ tail) = true ->
                importCount tail = 0%nat ->
                emojiModule st' = Some m ->
                orderly env st st').
      { intros st' tail Htr Hft Hnt Hmt.
        exists ([CallIsEmoji char; Import] ++ evs ++ tail). split_and!.
        - unfold traced. rewrite Htr. by rewrite <- !app_assoc.
        - by apply (fetchesChecked_app None [CallIsEmoji char; Import]).
        - rewrite Hmod. by intros [? ?].
        - intros _. rewrite !importCount_app, Hn, Hnt. unfold cached.
          rewrite Hmod, Hmt. simpl. lia. }
      destruct (heuristicLookup env m parent node char _) as [[| nodes | e] st'];
        simpl in Ht, Hm |- *.
      * apply (Hgoal st' []); [| by rewrite app_nil_r | done | done].
        unfold traced in Ht. rewrite Ht. simpl. by rewrite <- !app_assoc, app_nil_r.
      * apply (Hgoal st' []); [| by rewrite app_nil_r | done | done].
        unfold traced in Ht. rewrite Ht. simpl. by rewrite <- !app_assoc, app_nil_r.
      * apply (Hgoal _ [ConsoleError "Error using node-emoji:"]); [| done | done | done].
        unfold traced in Ht. simpl. rewrite Ht. simpl. by rewrite <- !app_assoc.
    + exists [CallIsEmoji char; Import; ConsoleError "Failed to import node-emoji:"].
      split_and!.
      * unfold traced. simpl. by rewrite <- !app_assoc.
      * done.
      * rewrite Hmod. by intros [? ?].
      * intros [m' Hm']. congruence.
Qed.

Lemma scan_orderly parent node chars :
  forall st, orderly env st (snd (scan env parent node chars st)).
Proof.
  induction chars as [|char rest IH]; intros st; cbn [scan]; [apply orderly_refl|].
  pose proof (customMappingPath_orderly env parent node char st) as Hc.
  destruct (customMappingPath env parent node char st) as [[| nodes | e] st1];
    simpl in Hc; [|done..].
  destruct (isMobileDevice env).
  { eapply orderly_trans; [exact Hc | apply IH]. }
  pose proof (heuristicPath_orderly parent node char st1) as Hh.
  destruct (heuristicPath env parent node char st1) as [[| nodes | e] st2]; simpl in Hh.
  - eapply orderly_trans; [exact Hc|]. eapply orderly_trans; [exact Hh | apply IH].
  - by eapply orderly_trans.
  - by eapply orderly_trans.
Qed.

Lemma processTextNodes_orderly node :
  forall parent st, orderly env st (snd (processTextNodes env parent node st)).
Proof.
  induction node as [uid text | uid tag cs IH] using Node_ind; intros parent st.
  - apply scan_orderly.
  - cbn [processTextNodes].
    pose proof (forChildren_keeps (orderly env) (processTextNodes env true) cs
                  (orderly_refl env) (orderly_trans env)) as Hkeep.
    destruct (forChildren (processTextNodes env true) cs st) as [[cs' k] st'] eqn:E.
    simpl. change st' with (snd (cs', k, st')). rewrite <- E. apply Hkeep.
    eapply Forall_impl; [exact IH|]. intros c Hc st0. apply Hc.
Qed.

End OrderOfTraversal.

(** X7.  In the traversal of any tree the emoji library is imported only
    when the cache is empty, and the module that an import yields is kept:
    with a module cached at the start there is no import at all and the
    cache is as it was; where the import succeeds there is at most one
    import, and after it the cache is filled. *)
Theorem emoji_library_is_imported_once (env : Env) (parent : bool) (node : Node)
    (st : State) :
  exists evs,
    traced st (snd (processTextNodes env parent node st)) evs
    /\ (is_Some (emojiModule st) ->
        importCount evs = 0%nat
        /\ emojiModule (snd (processTextNodes env parent node st)) = emojiModule st)
    /\ ((exists m, importNodeEmoji env = Return m) ->
        (importCount evs <= 1)%nat
        /\ (importCount evs = 1%nat ->
            is_Some (emojiModule (snd (processTextNodes env parent node st))))).
Proof.
  destruct (processTextNodes_orderly env node parent st) as (evs & Ht & _ & Hc & Hi).
  exists evs. split_and!; [done | |].
  - intros Hsome. by destruct (Hc Hsome).
  - intros Himp. specialize (Hi Himp). unfold cached in Hi.
    destruct (emojiModule (snd (processTextNodes env parent node st)));
      destruct (emojiModule st); split; try lia; intros; try by eexists. all: lia.
Qed.

(** X9.  In the traversal of any tree, custom mappings and default icon
    search alike, no icon is fetched that was not confirmed just before:
    every call of [getSVGIcon] comes right after a call of [hasIcon] for
    the same identifier. *)
Theorem icons_are_confirmed_before_fetched (env : Env) (parent : bool)
    (node : Node) (st : State) :
  exists evs,
    traced st (snd (processTextNodes env parent node st)) evs
    /\ fetchesChecked None evs = true
    /\ forall before id after,
         evs = before ++ CallGetSVGIcon id :: after ->
         exists before', before = before' ++ [CallHasIcon id].
Proof.
  destruct (processTextNodes_orderly env node parent st) as (evs & Ht & Hf & _).
  exists evs. split_and!; [done..|].
  clear Ht. intros before id after ->.
  assert (Hgen : forall prev,
            fetchesChecked prev (before ++ CallGetSVGIcon id :: after) = true ->
            (exists before', before = before' ++ [CallHasIcon id])
            \/ (before = [] /\ prev = Some (CallHasIcon id))).
  { clear Hf. induction before as [|e before IH]; intros prev.
    - simpl. destruct prev as [[]|]; try done.
      intros [Hid _]%andb_true_iff. apply bool_decide_eq_true in Hid as ->.
      by right.
    - simpl. intros [_ Hrest]%andb_true_iff.
      destruct (IH _ Hrest) as [[before' ->] | [-> [= ->]]]; left.
      + by exists (e :: before').
      + by exists []. }
  destruct (Hgen None Hf) as [? | [_ ?]]; done.
Qed.

(** ** The text of the tree *)

Lemma textContent_eraseUid n : textContent (eraseUid n) = textContent n.
Proof.
  induction n as [uid data | uid tag cs IH] using Node_ind; [done|].
  cbn [eraseUid textContent]. f_equal.
  induction IH as [|c r Hc _ IHr]; [done|]. simpl. by rewrite Hc, IHr.
Qed.

Section Text.

Variable env : Env.

(** The icons of the icon service carry no text. *)
Hypothesis icons_without_text :
  forall id svg, getSVGIcon (iconSC env) id = Return (Some svg) -> textContent svg = [].

Lemma scan_text parent node chars st :
  concat (map textContent (fst (fst (scan env parent node chars st))))
  `sublist_of` textContent node.
Proof.
  destruct (scan env parent node chars st) as [[nodes k] st'] eqn:Hscan.
  apply scan_outcome in Hscan
    as [-> | (scanned & char & rest & svg & id & _ & Hspl & Hget & _)]; simpl.
  - by rewrite app_nil_r.
  - destruct Hspl as (u1 & u2 & before & g & after & -> & -> & _ & Hcopy).
    assert (Hg : textContent g = []).
    { rewrite <- (textContent_eraseUid g), Hcopy, textContent_eraseUid.
      by eapply icons_without_text. }
    simpl. rewrite Hg, app_nil_r. simpl.
    apply sublist_app; [done|]. by apply sublist_inserts_l.
Qed.

Lemma processTextNodes_text node :
  forall parent st,
    concat (map textContent (fst (fst (processTextNodes env parent node st))))
    `sublist_of` textContent node.
Proof.
  induction node as [uid text | uid tag cs IH] using Node_ind; intros parent st.
  - apply scan_text.
  - cbn [processTextNodes].
    assert (Hcs : forall st,
              concat (map textContent
                        (fst (fst (forChildren (processTextNodes env true) cs st))))
              `sublist_of` concat (map textContent cs)).
    { clear st. induction IH as [|c r Hc _ IHr]; intros st; cbn [forChildren]; [done|].
      specialize (Hc true st).
      destruct (processTextNodes env true c st) as [[nodes [|e]] st1]; simpl in Hc.
      - specialize (IHr st1).
        destruct (forChildren (processTextNodes env true) r st1) as [[rest' k] st2].
        simpl in *. rewrite map_app, concat_app. by apply sublist_app.
      - simpl. rewrite map_app, concat_app. by apply sublist_app. }
    specialize (Hcs st).
    destruct (forChildren (processTextNodes env true) cs st) as [[cs' k] st'].
    simpl in *. by rewrite app_nil_r.
Qed.

End Text.

(** X8.  Where the icons of the icon service carry no text, the text of
    what stands in the place of a node after its traversal is the text of
    the node with some characters left out: the engine adds no text,
    changes none and keeps the order of what it leaves. *)
Theorem traversal_only_removes_text (env : Env) (parent : bool) (node : Node)
    (st : State) :
  (forall id svg, getSVGIcon (iconSC env) id = Return (Some svg) ->
     textContent svg = []) ->
  concat (map textContent (fst (fst (processTextNodes env parent node st))))
  `sublist_of` textContent node.
Proof. intros Hicons. by apply processTextNodes_text. Qed.

Lemma traversal_only_removes_text_witness :
  let env :=
    {| settings :=
         {| customEmojiMappings := {[ Sample.calendar := lit "luc_calendar" ]};
            enableDefaultIconSearch := true |};
       isMobileDevice := false;
       iconSC := Sample.plainIcons;
       importNodeEmoji := Return Sample.nodeEmoji |} in
  let tree := Element 1 "li" [Text 2 (lit "due " ++ Sample.calendar);
                              Element 3 "b" [Text 4 (Sample.grinning ++ lit " ok")]] in
  concat (map textContent (fst (fst (processTextNodes env true tree Sample.start))))
    = lit "due  ok"
  /\ concat (map textContent (fst (fst (processTextNodes env true tree Sample.start))))
     `sublist_of` textContent tree.
Proof.
  intros env tree. split; [vm_compute; reflexivity|].
  apply (traversal_only_removes_text env true tree Sample.start).
  intros id svg [= <-]. reflexivity.
Defined.

(** ** Regions without a paragraph, a list item or a division *)

Lemma querySelectorAll_none n :
  Forall (fun d => matchesSelector d = false) (descendants n) ->
  querySelectorAll n = [].
Proof.
  induction n as [uid data | uid tag cs IH] using Node_ind; [done|].
  cbn [descendants querySelectorAll].
  induction IH as [|c r Hc _ IHr]; [done|].
  cbn [flat_map]. rewrite <- app_comm_cons.
  intros [Hhead [Hsub Hrest]%Forall_app]%Forall_cons.
  rewrite Hhead, (Hc Hsub), (IHr Hrest). done.
Qed.

(** X10.  The post processor works on the paragraphs, list items and
    divisions below the root of the region it is given, and on nothing
    else: a region with no such element below its root (a heading, a table
    cell, or a paragraph that is itself the root) comes out of every
    render untouched, and no collaborator is called. *)
Theorem region_without_selected_element_untouched (rt : Lifecycle.Runtime)
    (p : Lifecycle.Plugin) (element : Node) (st : State) :
  Forall (fun d => matchesSelector d = false) (descendants element) ->
  Lifecycle.renderPass rt p element st = (element, st).
Proof.
  intros Hnone%querySelectorAll_none. unfold Lifecycle.renderPass.
  induction (Lifecycle.markdownPostProcessors p) as [|api apis IH]; [done|].
  cbn [fold_left fst snd]. unfold emojiPostProcessor at 2. rewrite Hnone. exact IH.
Qed.

(** A heading with a mapped emoji, and a paragraph handed over as the root
    of its own region, with the icon service there. *)
Lemma region_without_selected_element_untouched_witness :
  let p := Lifecycle.load Sample.equipped in
  let heading := Element 1 "h1" [Text 2 (Sample.calendar ++ lit " Plan")] in
  let paragraph := Element 3 "p" [Text 4 Sample.calendar; Element 5 "em" [Text 6 Sample.calendar]] in
  Lifecycle.markdownPostProcessors p = [Sample.iconService]
  /\ Lifecycle.renderPass Sample.equipped p heading Sample.start = (heading, Sample.start)
  /\ Lifecycle.renderPass Sample.equipped p paragraph Sample.start
     = (paragraph, Sample.start).
Proof.
  intros p heading paragraph. split; [reflexivity|]. split.
  - apply (region_without_selected_element_untouched Sample.equipped p heading
             Sample.start).
    vm_compute. by repeat constructor.
  - apply (region_without_selected_element_untouched Sample.equipped p paragraph
             Sample.start).
    vm_compute. by repeat constructor.
Defined.

(** * Further properties of the settings tab *)

(** ** Saving *)

(** How a click on "Add mapping" can end, whatever the icon service does:
    nothing happens (the handler was left by an exception), or a notice is
    shown, or the mapping is stored and saved. *)
Lemma addMappingOnClick_cases getApi t :
  SettingTab.addMappingOnClick getApi t = t
  \/ (exists msg, SettingTab.addMappingOnClick getApi t = SettingTab.notice msg t)
  \/ (SettingTab.emojiInput t <> [] /\ SettingTab.iconInput t <> []
      /\ SettingTab.addMappingOnClick getApi t
         = {| SettingTab.pluginSettings :=
                SettingTab.setMapping (SettingTab.emojiInput t) (SettingTab.iconInput t)
                  (SettingTab.pluginSettings t);
              SettingTab.saved :=
                SettingTab.saved t
                ++ [SettingTab.setMapping (SettingTab.emojiInput t)
                      (SettingTab.iconInput t) (SettingTab.pluginSettings t)];
              SettingTab.notices := SettingTab.notices t;
              SettingTab.emojiInput := []; SettingTab.iconInput := [];
              SettingTab.refreshes := S (SettingTab.refreshes t) |}).
Proof.
  unfold SettingTab.addMappingOnClick.
  destruct (SettingTab.emojiInput t) as [|u e] eqn:He; [right; left; by eexists|].
  destruct (SettingTab.iconInput t) as [|v i] eqn:Hi; [right; left; by eexists|].
  cbn [truthy negb orb].
  destruct getApi as [api|]; [|right; left; by eexists].
  destruct (isEmoji api (u :: e)) as [[|]|]; [|right; left; by eexists|by left].
  destruct (SettingTab.onlyOneEmoji api _ false) as [[|]|];
    [|right; left; by eexists|by left].
  right; right. by split_and!.
Qed.

Lemma load_after_save s : Lifecycle.loadSettings (Some (Lifecycle.saveData s)) = s.
Proof. by destruct s. Qed.

(** One action either changes neither the settings nor what was saved, or
    saves the settings it leaves. *)
Lemma act_saves getApi a t :
  (SettingTab.pluginSettings (SettingTab.act getApi a t) = SettingTab.pluginSettings t
   /\ SettingTab.saved (SettingTab.act getApi a t) = SettingTab.saved t)
  \/ last (SettingTab.saved (SettingTab.act getApi a t))
     = Some (SettingTab.pluginSettings (SettingTab.act getApi a t)).
Proof.
  destruct a as [value | value | | emoji | value]; cbn [SettingTab.act].
  - by left.
  - by left.
  - destruct (addMappingOnClick_cases getApi t) as [-> | [[msg ->] | (_ & _ & ->)]].
    + by left.
    + by left.
    + right. cbn. apply last_snoc.
  - right. cbn. apply last_snoc.
  - right. cbn. apply last_snoc.
Qed.

(** X11.  Every change that the settings tab makes to the settings is
    saved at once: after any sequence of typing, adding, deleting and
    toggling, either the settings and the saves are what they were, or the
    last save is the settings as they are now, and loading it gives them
    back. *)
Theorem settings_changes_are_saved (getApi : option IconSC)
    (actions : list SettingTab.Action) (t : SettingTab.Tab) :
  let t' := SettingTab.perform getApi actions t in
  (SettingTab.pluginSettings t' = SettingTab.pluginSettings t
   /\ SettingTab.saved t' = SettingTab.saved t)
  \/ exists s,
       last (SettingTab.saved t') = Some s
       /\ s = SettingTab.pluginSettings t'
       /\ Lifecycle.loadSettings (Some (Lifecycle.saveData s))
          = SettingTab.pluginSettings t'.
Proof.
  revert t. induction actions as [|a actions IH]; intros t; [by left|].
  cbn [SettingTab.perform fold_left] in *.
  destruct (IH (SettingTab.act getApi a t)) as [[Hs Hsaved] | Hlast]; [|by right].
  unfold SettingTab.perform in *.
  destruct (act_saves getApi a t) as [[Hs' Hsaved'] | Hlast'].
  - left. split; congruence.
  - right. eexists. rewrite Hsaved, Hs. split; [exact Hlast'|].
    split; [done | apply load_after_save].
Qed.

(** ** Entries of the table *)

Lemma act_noEmptyEntry getApi a t :
  SettingTab.noEmptyEntry (customEmojiMappings (SettingTab.pluginSettings t)) ->
  SettingTab.noEmptyEntry
    (customEmojiMappings (SettingTab.pluginSettings (SettingTab.act getApi a t))).
Proof.
  intros Hinv.
  destruct a as [value | value | | emoji | value]; cbn [SettingTab.act]; try done.
  - destruct (addMappingOnClick_cases getApi t) as [-> | [[msg ->] | (He & Hi & ->)]];
      [done..|].
    cbn. intros k v Hk. destruct (decide (SettingTab.emojiInput t = k)) as [<- | Hne].
    + rewrite lookup_insert_eq in Hk. by injection Hk as <-.
    + rewrite lookup_insert_ne in Hk by done. by apply Hinv.
  - cbn. intros k v Hk. destruct (decide (emoji = k)) as [<- | Hne].
    + by rewrite lookup_delete_eq in Hk.
    + rewrite lookup_delete_ne in Hk by done. by apply Hinv.
Qed.

(** X12.  The settings tab never stores an empty key or an empty icon
    shortcode: if the table has none, it has none after any sequence of
    actions, whatever the icon service answers.  For such a table the test
    for a truthy entry in the engine hides nothing: the engine finds a
    mapping for a character exactly when the table has one. *)
Theorem tab_stores_no_empty_entry (getApi : option IconSC)
    (actions : list SettingTab.Action) (t : SettingTab.Tab) :
  SettingTab.noEmptyEntry (customEmojiMappings (SettingTab.pluginSettings t)) ->
  let t' := SettingTab.perform getApi actions t in
  SettingTab.noEmptyEntry (customEmojiMappings (SettingTab.pluginSettings t'))
  /\ forall mobile api import char,
       lookupMapping (envOfTab t' mobile api import) char
       = customEmojiMappings (SettingTab.pluginSettings t') !! char.
Proof.
  intros Hinv t'.
  assert (Hinv' : SettingTab.noEmptyEntry
                    (customEmojiMappings (SettingTab.pluginSettings t'))).
  { subst t'. revert t Hinv. induction actions as [|a actions IH]; intros t Hinv; [done|].
    cbn [SettingTab.perform fold_left]. apply IH. by apply act_noEmptyEntry. }
  split; [done|]. intros mobile api import char. unfold lookupMapping. cbn.
  destruct (_ !! char) as [id|] eqn:Hid; [|done].
  destruct (Hinv' char id Hid) as [_ Hne]. by destruct id.
Qed.

Lemma tab_stores_no_empty_entry_witness :
  let t := Sample.tab [] [] in
  let actions :=
    [SettingTab.TypeEmoji Sample.grinning; SettingTab.ClickAdd;
     SettingTab.TypeIcon (lit "luc_smile"); SettingTab.ClickAdd;
     SettingTab.ClickDelete Sample.calendar; SettingTab.Toggle false] in
  let t' := SettingTab.perform (Some Sample.iconService) actions t in
  customEmojiMappings (SettingTab.pluginSettings t')
    = {[ Sample.grinning := lit "luc_smile" ]}
  /\ SettingTab.notices t' = ["Both emoji and icon shortcode are required"%string]
  /\ SettingTab.noEmptyEntry (customEmojiMappings (SettingTab.pluginSettings t'))
  /\ forall mobile api import char,
       lookupMapping (envOfTab t' mobile api import) char
       = customEmojiMappings (SettingTab.pluginSettings t') !! char.
Proof.
  intros t actions t'. split; [by vm_compute|]. split; [by vm_compute|].
  apply (tab_stores_no_empty_entry (Some Sample.iconService) actions t).
  intros k v Hk. cbn in Hk. apply lookup_singleton_Some in Hk as [<- <-]. done.
Defined.

(** ** Adding, deleting and rendering *)





(** X15.  A mapping added through the settings tab is used by the engine:
    after the click, when the icon service confirms the icon and hands it
    out, the loop that reaches the emoji in a text leaf splices the leaf
    with a copy of that icon, on every platform and whatever the flag. *)
Theorem added_mapping_is_rendered (api : IconSC) (detect : jsstring -> bool)
    (t : SettingTab.Tab) (mobile : bool) (import : Result EmojiModule)
    (uid : nat) (text : jsstring) (rest : list jsstring) (svg : Node) (st : State) :
  (forall s, isEmoji api s = Return (detect s)) ->
  SettingTab.singleEmoji detect (SettingTab.emojiInput t) ->
  SettingTab.iconInput t <> [] ->
  hasIcon api (SettingTab.iconInput t) = Return true ->
  getSVGIcon api (SettingTab.iconInput t) = Return (Some svg) ->
  SettingTab.emojiInput t ∈ stringIterator text ->
  let t' := SettingTab.addMappingOnClick (Some api) t in
  exists nodes st',
    scan (envOfTab t' mobile api import) true (Text uid text)
         (SettingTab.emojiInput t :: rest) st
    = (nodes, Normal, st')
    /\ spliced (Text uid text) (SettingTab.emojiInput t) svg nodes.
Proof.
  intros Hdetect Hsingle Hicon Hhas Hget Hin t'.
  assert (Ht' : t' = _) by exact (addMappingOnClick_accepts api detect Hdetect t Hsingle Hicon).
  destruct (scan_mapped (envOfTab t' mobile api import) uid text (SettingTab.emojiInput t)
              rest (SettingTab.iconInput t) svg st)
    as (nodes & st' & _ & Hscan & Hspl & _); try done.
  - rewrite Ht'. cbn. apply lookup_insert_eq.
  - by exists nodes, st'.
Qed.

(** The grinning face is added on a mobile device and rendered. *)
Lemma added_mapping_is_rendered_witness :
  let t := Sample.tab Sample.grinning (lit "luc_smile") in
  let t' := SettingTab.addMappingOnClick (Some Sample.iconService) t in
  let leaf := Text 7 (lit "hi " ++ Sample.grinning) in
  exists nodes st',
    scan (envOfTab t' true Sample.iconService (Throw "no module")) true leaf
         [Sample.grinning] Sample.start
    = (nodes, Normal, st')
    /\ spliced leaf Sample.grinning (Sample.svgOf (lit "luc_smile")) nodes.
Proof.
  intros t t' leaf.
  apply (added_mapping_is_rendered Sample.iconService Sample.detectEmoji t true
           (Throw "no module") 7 (lit "hi " ++ Sample.grinning) []
           (Sample.svgOf (lit "luc_smile")) Sample.start).
  - intros s. reflexivity.
  - split_and!; [discriminate | reflexivity | vm_compute; lia].
  - discriminate.
  - reflexivity.
  - reflexivity.
  - vm_compute. do 3 right. left.
Defined.

(** X16.  The preview of a mapping in the settings tab and the engine
    agree: for an entry with a shortcode that is not empty, when the
    preview cell shows an icon, the loop that reaches the emoji in a text
    leaf splices a copy of that icon in; when the cell reads "(Icon not
    found)", the custom mapping of the emoji replaces nothing and creates
    no node. *)
Theorem preview_agrees_with_engine (env : Env) (uid : nat)
    (text char : jsstring) (rest : list jsstring) (id : jsstring) (st : State) :
  char ∈ stringIterator text ->
  customEmojiMappings (settings env) !! char = Some id ->
  id <> [] ->
  (forall svg,
     SettingTab.iconPreview (Some (iconSC env)) id = Return (SettingTab.IconShown svg) ->
     exists nodes st',
       scan env true (Text uid text) (char :: rest) st = (nodes, Normal, st')
       /\ spliced (Text uid text) char svg nodes)
  /\ (SettingTab.iconPreview (Some (iconSC env)) id = Return SettingTab.IconNotFound ->
      exists st1,
        customMappingPath env true (Text uid text) char st = (Proceed, st1)
        /\ nextUid st1 = nextUid st).
Proof.
  intros Hin Hmap Hne. unfold SettingTab.iconPreview. split.
  - intros svg Hshown.
    destruct (hasIcon (iconSC env) id) as [[|]|] eqn:Hhas; [|done..].
    destruct (getSVGIcon (iconSC env) id) as [[svg'|]|] eqn:Hget; [|done..].
    injection Hshown as ->.
    destruct (scan_mapped env uid text char rest id svg st)
      as (nodes & st' & _ & Hscan & Hspl & _); try done.
    by exists nodes, st'.
  - intros Hnot. unfold customMappingPath.
    rewrite (lookupMapping_truthy env char id Hmap Hne).
    destruct (hasIcon (iconSC env) id) as [[|]|] eqn:Hhas; [|by eexists|done].
    destruct (getSVGIcon (iconSC env) id) as [[svg'|]|] eqn:Hget; [done|by eexists|done].
Qed.

(** The grinning face is mapped to an icon that is there, the calendar to
    one that is not. *)
Lemma preview_agrees_with_engine_witness :
  let env :=
    {| settings :=
         {| customEmojiMappings := {[ Sample.grinning := lit "luc_smile" ]};
            enableDefaultIconSearch := false |};
       isMobileDevice := false;
       iconSC := Sample.sparseIcons;
       importNodeEmoji := Return Sample.nodeEmoji |} in
  let leaf := Text 7 (Sample.grinning ++ lit "!") in
  SettingTab.iconPreview (Some (iconSC env)) (lit "luc_smile")
    = Return (SettingTab.IconShown (Sample.svgOf (lit "luc_smile")))
  /\ (forall svg,
        SettingTab.iconPreview (Some (iconSC env)) (lit "luc_smile")
        = Return (SettingTab.IconShown svg) ->
        exists nodes st',
          scan env true leaf [Sample.grinning] Sample.start = (nodes, Normal, st')
          /\ spliced leaf Sample.grinning svg nodes)
  /\ (SettingTab.iconPreview (Some (iconSC env)) (lit "luc_smile")
      = Return SettingTab.IconNotFound ->
      exists st1,
        customMappingPath env true leaf Sample.grinning Sample.start = (Proceed, st1)
        /\ nextUid st1 = nextUid Sample.start).
Proof.
  intros env leaf. split; [reflexivity|].
  apply (preview_agrees_with_engine env 7 (Sample.grinning ++ lit "!") Sample.grinning
           [] (lit "luc_smile") Sample.start).
  - vm_compute. left.
  - vm_compute. reflexivity.
  - discriminate.
Defined.

(** X17.  Switching "Enable default icon search" off in the settings tab
    saves the flag, leaves the mapping table alone, and takes effect on the
    next traversal: it is the traversal that knows the custom mappings of
    the tab only, and it makes no call of the default icon search. *)
Theorem toggled_off_search_is_skipped (t : SettingTab.Tab) (mobile : bool)
    (api : IconSC) (import : Result EmojiModule) (parent : bool) (node : Node)
    (st : State) :
  let t' := SettingTab.toggleOnChange false t in
  customEmojiMappings (SettingTab.pluginSettings t')
    = customEmojiMappings (SettingTab.pluginSettings t)
  /\ last (SettingTab.saved t') = Some (SettingTab.pluginSettings t')
  /\ processTextNodes (envOfTab t' mobile api import) parent node st
     = customMappingsOnly (envOfTab t mobile api import) parent node st
  /\ calm st (snd (processTextNodes (envOfTab t' mobile api import) parent node st)).
Proof.
  intros t'. split_and!.
  - done.
  - cbn. apply last_snoc.
  - rewrite (processTextNodes_customMappingsOnly (envOfTab t' mobile api import) node)
      by (by right).
    by apply customMappingsOnly_reads.
  - rewrite (processTextNodes_customMappingsOnly (envOfTab t' mobile api import) node)
      by (by right).
    apply customMappingsOnly_calm.
Qed.

(** * The render pass with its callbacks interleaved *)

(** X19.  Also with the callbacks interleaved, a region with no paragraph,
    list item or division below its root comes out of the render untouched,
    with no collaborator called, whatever the latency of the collaborators
    and the turns of the queue allowed: no callback is started. *)
Theorem interleaved_render_without_selected_element (env : Env)
    (latency fuel : nat) (element : Node) (st : State) :
  Forall (fun d => matchesSelector d = false) (descendants element) ->
  interleavedPostProcessor env latency fuel element st = Some (element, st).
Proof.
  intros Hnone%querySelectorAll_none. unfold interleavedPostProcessor.
  rewrite Hnone. cbn [startCallbacks fold_left]. by destruct fuel.
Qed.

(** A heading with a mapped emoji. *)
Lemma interleaved_render_without_selected_element_witness :
  let env := Sample.desktop {[ Sample.calendar := lit "luc_calendar" ]} true in
  let heading := Element 1 "h1" [Text 2 (Sample.calendar ++ lit " Plan")] in
  interleavedPostProcessor env 2 0 heading Sample.start = Some (heading, Sample.start).
Proof.
  intros env heading.
  apply (interleaved_render_without_selected_element env 2 0 heading Sample.start).
  vm_compute. by repeat constructor.
Defined.

(** X20.  Where one element is selected there is one callback and nothing
    to interleave with: for the region of one paragraph that reads
    "Meeting", a calendar emoji, "today",
    the render with the queue gives the tree and the state of the render
    that runs the callback to its end, with the calendar mapped and with
    the calendar found by the default icon search after the import of the
    emoji library, with the promises settled at once or two turns later. *)
Example interleaved_render_of_one_paragraph :
  let mapped := Sample.desktop {[ Sample.calendar := lit "luc_calendar" ]} true in
  let searched := Sample.desktop ∅ true in
  querySelectorAll Sample.region = [2]%nat
  /\ interleavedPostProcessor mapped 0 100 Sample.region Sample.start
     = Some (emojiPostProcessor mapped Sample.region Sample.start)
  /\ interleavedPostProcessor mapped 2 100 Sample.region Sample.start
     = Some (emojiPostProcessor mapped Sample.region Sample.start)
  /\ interleavedPostProcessor searched 0 100 Sample.region Sample.start
     = Some (emojiPostProcessor searched Sample.region Sample.start)
  /\ interleavedPostProcessor searched 2 100 Sample.region Sample.start
     = Some (emojiPostProcessor searched Sample.region Sample.start)
  /\ fst (emojiPostProcessor searched Sample.region Sample.start)
     = Element 1 "div"
         [Element 2 "p"
            [Text 100 (lit "Meeting ");
             Element 102 "svg" [Element 103 "path" []; Text 104 (lit "luc_date")];
             Text 101 (lit " today")]].
Proof. intros mapped searched. split_and!; vm_compute; reflexivity. Qed.

(** ** One callback on its own *)

Lemma drain_wait env latency wait :
  forall fuel textNode char rest awaited below s w,
  drain env latency (wait + fuel)
    [{| frames := InText textNode char rest wait awaited :: below; settled := s |}] w
  = drain env latency fuel
      [{| frames := InText textNode char rest 0 awaited :: below; settled := s |}] w.
Proof.
  induction wait as [|wait IH]; intros; [done|].
  cbn [Nat.add drain runJob frames settled app option_list]. apply IH.
Qed.

Lemma drain_nil env latency fuel w : drain env latency fuel [] w = Some w.
Proof. by destruct fuel. Qed.

(** A call that waits lands where it lands once the awaited promise is
    settled. *)
Lemma lands_await env latency place textNode char rest wait awaited w r :
  lands env latency place (resumeText env latency textNode char rest awaited w) r ->
  lands env latency place (Pending [InText textNode char rest wait awaited] Normal, w) r.
Proof.
  unfold lands.
  destruct (resumeText env latency textNode char rest awaited w)
    as [[k | inner s] w1] eqn:Hresume.
  - intros [-> ->]. exists (wait + 1)%nat. intros fuel below Hbelow.
    cbn [app]. rewrite <- Nat.add_assoc, drain_wait.
    cbn [Nat.add drain runJob frames settled app]. rewrite Hresume.
    by destruct below.
  - intros [turns Hturns]. exists (wait + (1 + turns))%nat. intros fuel below Hbelow.
    cbn [app]. rewrite <- Nat.add_assoc, drain_wait.
    cbn [Nat.add drain runJob frames settled app]. rewrite Hresume.
    cbn [option_list app]. by apply Hturns.
Qed.

Section OneCallback.

Variable env : Env.
Variable latency : nat.
Variable u : nat.
Variable text : jsstring.

(** The tree of the region, with the text node in it, and the tree with
    other nodes in the place of the text node. *)
Variable doc : Node.
Variable place : list Node -> Node.

Hypothesis place_same : place [Text u text] = doc.
Hypothesis place_replaced : forall nodes, replaceChild u nodes doc = place nodes.
Hypothesis attached_node : attached u doc = true.

Implicit Types cont : State -> list Node * Completion * State.

Lemma replaceInDocument_place char svg st :
  replaceInDocument (Text u text) char svg {| document := doc; engine := st |}
  = match replaceTextWithIcon true (Text u text) char svg st with
    | (Some nodes, st') => (true, {| document := place nodes; engine := st' |})
    | (None, st') => (false, {| document := doc; engine := st' |})
    end.
Proof.
  unfold replaceInDocument. cbn [nodeUid document engine]. rewrite attached_node.
  destruct (replaceTextWithIcon true (Text u text) char svg st) as [[nodes|] st'];
    [|done].
  by rewrite place_replaced.
Qed.

Lemma lucideFrom_lands cont m char rest st :
  (forall st1, lands env latency place
                 (loopFrom env latency (Text u text) rest
                    {| document := doc; engine := st1 |})
                 (cont st1)) ->
  lands env latency place
    (lucideFrom env latency (loopFrom env latency (Text u text) rest) m
       (Text u text) char rest {| document := doc; engine := st |})
    match heuristicLookup env m true (Text u text) char st with
    | (Break nodes, st') => (nodes, Normal, st')
    | (Raise _, st') => cont (emit (ConsoleError "Error using node-emoji:") st')
    | (Proceed, st') => cont st'
    end.
Proof.
  intros Hnext. unfold lucideFrom, heuristicLookup, say. cbn [document engine].
  destruct (find m char) as [[key|]|e]; [|apply Hnext..].
  destruct (hasIcon (iconSC env) (lit "luc_" ++ key)) as [[|]|e]; [|apply Hnext..].
  apply lands_await. unfold resumeText, say. cbn [document engine].
  destruct (getSVGIcon (iconSC env) (lit "luc_" ++ key)) as [[svg|]|e];
    [|apply Hnext..].
  rewrite replaceInDocument_place.
  destruct (replaceTextWithIcon true (Text u text) char svg _) as [[nodes|] st'];
    apply lands_await; cbn [resumeText].
  - done.
  - apply Hnext.
Qed.

Lemma heuristicFrom_lands cont char rest st :
  (forall st1, lands env latency place
                 (loopFrom env latency (Text u text) rest
                    {| document := doc; engine := st1 |})
                 (cont st1)) ->
  lands env latency place
    (heuristicFrom env latency (loopFrom env latency (Text u text) rest)
       (Text u text) char rest {| document := doc; engine := st |})
    (if isMobileDevice env then cont st
     else match heuristicPath env true (Text u text) char st with
          | (Break nodes, st2) => (nodes, Normal, st2)
          | (Raise e, st2) => ([Text u text], Abrupt e, st2)
          | (Proceed, st2) => cont st2
          end).
Proof.
  intros Hnext. unfold heuristicFrom, heuristicPath.
  destruct (isMobileDevice env); [apply Hnext|].
  destruct (enableDefaultIconSearch (settings env)); [|apply Hnext].
  unfold say. cbn [document engine emit emojiModule].
  destruct (isEmoji (iconSC env) char) as [[|]|e];
    [| apply Hnext | cbn; by rewrite place_same].
  destruct (emojiModule st) as [m|].
  - pose proof (lucideFrom_lands cont m char rest
                  (emit (CallIsEmoji char) st) Hnext) as Hlands.
    by destruct (heuristicLookup env m true (Text u text) char
                   (emit (CallIsEmoji char) st)) as [[| nodes | e] st'].
  - apply lands_await. unfold resumeText, say, cache. cbn [document engine].
    destruct (importNodeEmoji env) as [m|e]; [|apply Hnext].
    pose proof (lucideFrom_lands cont m char rest
                  (setEmojiModule m (emit Import (emit (CallIsEmoji char) st)))
                  Hnext) as Hlands.
    by destruct (heuristicLookup env m true (Text u text) char
                   (setEmojiModule m (emit Import (emit (CallIsEmoji char) st))))
      as [[| nodes | e] st'].
Qed.

(** The loop with its [await]s comes to the end of the loop of [scan]. *)
Lemma loopFrom_lands chars :
  forall st,
  lands env latency place
    (loopFrom env latency (Text u text) chars {| document := doc; engine := st |})
    (scan env true (Text u text) chars st).
Proof.
  induction chars as [|char rest IH]; intros st.
  - cbn. by rewrite place_same.
  - cbn [loopFrom scan]. unfold customMappingPath.
    destruct (lookupMapping env char) as [id|];
      [|by apply heuristicFrom_lands].
    unfold say. cbn [document engine].
    destruct (hasIcon (iconSC env) id) as [[|]|e];
      [| by apply heuristicFrom_lands | cbn; by rewrite place_same].
    apply lands_await. unfold resumeText.
    destruct (getSVGIcon (iconSC env) id) as [[svg|]|e];
      [| by apply heuristicFrom_lands | cbn; by rewrite place_same].
    rewrite replaceInDocument_place.
    destruct (replaceTextWithIcon true (Text u text) char svg _) as [[nodes|] st'];
      apply lands_await; cbn [resumeText].
    + done.
    + by apply heuristicFrom_lands.
Qed.

End OneCallback.

(** X21.  A region whose only paragraph, list item or division holds one
    text leaf, the elements told apart by their identities: there is one
    callback, and the render with the queue comes, after enough turns and
    whatever the latency of the collaborators' promises, to the tree and
    the state of the render that runs the callback to its end, which puts
    what the traversal of the leaf leaves into the paragraph. *)
Theorem interleaved_render_of_one_leaf (env : Env) (latency : nat) (r p u : nat)
    (tag ptag : string) (text : jsstring) (st : State) :
  matchesSelector (Element p ptag [Text u text]) = true ->
  r <> p -> p <> u ->
  emojiPostProcessor env (Element r tag [Element p ptag [Text u text]]) st
  = (Element r tag
       [Element p ptag (fst (fst (processTextNodes env true (Text u text) st)))],
     snd (processTextNodes env true (Text u text) st))
  /\ exists turns, forall fuel, (turns <= fuel)%nat ->
       interleavedPostProcessor env latency fuel
         (Element r tag [Element p ptag [Text u text]]) st
       = Some (emojiPostProcessor env (Element r tag [Element p ptag [Text u text]]) st).
Proof.
  intros Hsel Hrp Hpu.
  assert (Hselected :
    querySelectorAll (Element r tag [Element p ptag [Text u text]]) = [p]).
  { cbn [querySelectorAll flat_map nodeUid]. by rewrite Hsel. }
  assert (Hseq :
    emojiPostProcessor env (Element r tag [Element p ptag [Text u text]]) st
    = (Element r tag
         [Element p ptag (fst (fst (processTextNodes env true (Text u text) st)))],
       snd (processTextNodes env true (Text u text) st))).
  { unfold emojiPostProcessor. rewrite Hselected.
    cbn [fold_left fst snd processUnder underChildren nodeUid].
    rewrite Hsel, bool_decide_eq_true_2 by done. cbn [andb].
    cbn [processTextNodes forChildren].
    destruct (scan env true (Text u text) (stringIterator text) st)
      as [[nodes [|e]] st']; cbn; by rewrite app_nil_r. }
  split; [exact Hseq|]. rewrite Hseq. clear Hseq.
  pose proof (loopFrom_lands env latency u text
                (Element r tag [Element p ptag [Text u text]])
                (fun nodes => Element r tag [Element p ptag nodes])) as Hlands.
  specialize (Hlands eq_refl).
  assert (Hrep : forall nodes,
            replaceChild u nodes (Element r tag [Element p ptag [Text u text]])
            = Element r tag [Element p ptag nodes]).
  { intros nodes. cbn. rewrite bool_decide_eq_false_2 by done. cbn.
    rewrite bool_decide_eq_true_2 by done. by rewrite !app_nil_r. }
  assert (Hatt : attached u (Element r tag [Element p ptag [Text u text]]) = true).
  { cbn. rewrite (bool_decide_eq_true_2 (u = u)) by done. by rewrite !orb_true_r. }
  specialize (Hlands Hrep Hatt (stringIterator text) st).
  unfold interleavedPostProcessor. rewrite Hselected.
  unfold startCallbacks. cbn [fold_left fst snd document current nodeUid].
  rewrite (bool_decide_eq_false_2 (r = p)) by done.
  cbn [firstSome current nodeUid]. rewrite (bool_decide_eq_true_2 (p = p)) by done.
  cbn [enter processTextNodes] in *.
  destruct (scan env true (Text u text) (stringIterator text) st)
    as [[nodes k] st'].
  destruct (loopFrom env latency (Text u text) (stringIterator text)
              {| document := Element r tag [Element p ptag [Text u text]];
                 engine := st |}) as [[k' | inner s] w1];
    unfold lands in Hlands; cbn [fst snd] in *.
  - destruct Hlands as [-> ->]. exists 1%nat. intros [|fuel] Hfuel; [lia|].
    cbn [drain runJob frames settled finish app option_list].
    destruct k; by rewrite drain_nil.
  - destruct Hlands as [turns Hturns]. exists (turns + 1)%nat. intros fuel Hfuel.
    replace fuel with (turns + S (fuel - turns - 1))%nat by lia.
    cbn [app fst snd]. rewrite Hturns by done.
    cbn [drain runJob frames settled finish app option_list].
    destruct k; by rewrite drain_nil.
Qed.

(** The region of one paragraph "Meeting", calendar emoji, "today". *)
Lemma interleaved_render_of_one_leaf_witness :
  let env := Sample.desktop {[ Sample.calendar := lit "luc_calendar" ]} true in
  let text := lit "Meeting " ++ Sample.calendar ++ lit " today" in
  Sample.region = Element 1 "div" [Element 2 "p" [Text 3 text]]
  /\ emojiPostProcessor env (Element 1 "div" [Element 2 "p" [Text 3 text]]) Sample.start
     = (Element 1 "div"
          [Element 2 "p"
             (fst (fst (processTextNodes env true (Text 3 text) Sample.start)))],
        snd (processTextNodes env true (Text 3 text) Sample.start))
  /\ exists turns, forall fuel, (turns <= fuel)%nat ->
       interleavedPostProcessor env 2 fuel
         (Element 1 "div" [Element 2 "p" [Text 3 text]]) Sample.start
       = Some (emojiPostProcessor env
                 (Element 1 "div" [Element 2 "p" [Text 3 text]]) Sample.start).
Proof.
  intros env text. split; [reflexivity|].
  apply (interleaved_render_of_one_leaf env 2 1 2 3 "div" "p" text Sample.start).
  - reflexivity.
  - lia.
  - lia.
Defined.
